(** * OpenMPI_OpenMP: the SPMD collective-computation examples

    A shallow embedding of the MPI teaching programs of the repository
    (MPI_Parallel_Sum, MPI_Timing_Max, MPI_Matrix_Vector, MPI_Bcast_Struct)
    and the properties their specification states about them.

    The programs are SPMD: every rank runs the same [main].  A run is modelled
    in lockstep, as a list indexed by rank of what each rank holds, and every
    MPI collective is a function on that list.  The collectives themselves live
    in the MPI library; their models follow the contracts the sources spell out
    in their comments at each call site.

    Values of C type [double] are kept behind the interface [Arith], which has
    two instances: IEEE binary64 ([PrimFloat]), as the compiled programs
    compute, and [Z], exact arithmetic on integer values.  What is proved of
    sums is proved in binary64, within the range where no addition rounds
    (integers up to 2^53); the kernel of the matrix-vector product is proved
    for any arithmetic. *)

From Stdlib Require Import ZArith Lia PrimFloat Uint63.
From stdpp Require Import base numbers option list strings pretty.
From Stdlib Require FloatAxioms.

Local Open Scope Z_scope.

(** ** The arithmetic of [double] *)

Class Arith (D : Type) := {
  d_zero : D;                  (* the literal 0 *)
  d_add : D -> D -> D;         (* a + b *)
  d_mul : D -> D -> D;         (* a * b *)
  d_leb : D -> D -> bool;      (* a <= b *)
  d_of_int : Z -> D;           (* (double)k for an int k *)
}.

(** Exact arithmetic: a double that holds an integer value. *)
#[export] Instance Z_Arith : Arith Z := {
  d_zero := 0;
  d_add := Z.add;
  d_mul := Z.mul;
  d_leb := Z.leb;
  d_of_int := fun k => k;
}.

(** IEEE 754 binary64, as the compiled programs compute. *)
#[export] Instance binary64_Arith : Arith float := {
  d_zero := 0%float;
  d_add := PrimFloat.add;
  d_mul := PrimFloat.mul;
  d_leb := PrimFloat.leb;
  d_of_int := fun k =>
    if k <? 0 then PrimFloat.opp (PrimFloat.of_uint63 (Uint63.of_Z (- k)))
    else PrimFloat.of_uint63 (Uint63.of_Z k);
}.

(** The integer a double holds, if it holds one. *)
Definition integer_value (x : float) : option Z :=
  match FloatOps.Prim2SF x with
  | SpecFloat.S754_zero _ => Some 0
  | SpecFloat.S754_finite s m e =>
      if decide (0 <= e) then Some (SpecFloat.cond_Zopp s (Zpos m * 2 ^ e))
      else if decide (Zpos m `mod` 2 ^ (- e) = 0)
           then Some (SpecFloat.cond_Zopp s (Zpos m `div` 2 ^ (- e)))
           else None
  | _ => None
  end.

(** An arithmetic is exact up to [B] when the integers of [0, B] are
    converted, added and compared without rounding, and [<=] is transitive.
    Binary64 is exact up to 2^53 (proved below). *)
Record exact_up_to `{Arith D} (B : Z) : Prop := {
  exact_zero : d_zero = d_of_int 0;
  exact_add : forall a b,
    0 <= a -> 0 <= b -> a + b <= B ->
    d_add (d_of_int a) (d_of_int b) = d_of_int (a + b);
  exact_leb : forall a b,
    0 <= a <= B -> 0 <= b <= B ->
    d_leb (d_of_int a) (d_of_int b) = (a <=? b);
  leb_transitive : forall x y z,
    d_leb x y = true -> d_leb y z = true -> d_leb x z = true;
}.

(** MPI_MAX on two values. *)
Definition d_max `{Arith D} (a b : D) : D := if d_leb a b then b else a.

(** ** Memory *)

(** [new double[n]]: [n] cells whose content is whatever the allocator left
    there ([junk k] in cell [k]). *)
Definition new_double {A} (junk : nat -> A) (n : nat) : list A :=
  junk <$> seq 0 n.

(** Copy [blk] into [buf] from index [off] on: [buf[off + k] = blk[k]].  A
    cell past the end of [buf] is not written (in C that write is undefined;
    no program below makes one). *)
Definition write_block {A} (off : nat) (blk buf : list A) : list A :=
  list_inserts off blk buf.

(** ** The MPI collectives

    The MPI library is not among the sources: the programs only call it.  Its
    collectives are modelled from the specification of the collective
    transport (section 4.3), which agrees with what the sources say at each
    call site. *)

Module MPI.

(** The five collective calls of the programs, for the trace of a run. *)
Inductive Collective := Bcast | Scatter | Gather | Reduce | Barrier.

Section Transport.
Context {A : Type}.

(** Modelled from the spec: the body of [MPI_Bcast], which the MPI library
    provides.  "After return, every rank's buffer holds the bytes that were
    in root's buffer at call time"; at the call sites: "Rank 0 still has its
    original s. Every other rank has received identical field values".
    Over the per-rank buffers [bufs]: the first [count] elements of the
    root's buffer are copied into the buffer of every other rank, and the
    root keeps its buffer. *)
Definition MPI_Bcast (count root : nat) (bufs : list (list A)) : list (list A) :=
  match bufs !! root with
  | None => bufs
  | Some src =>
      imap (fun r buf => if decide (r = root) then buf
                         else write_block 0 (take count src) buf) bufs
  end.

(** Modelled from the spec: the body of [MPI_Scatter], which the MPI library
    provides.  The root's [sendbuf] holds the blocks "in rank order (rank 0's
    block first); after return, each rank's recvBuffer holds its
    countPerRank-element block": rank [r] receives the elements
    [r*count .. r*count + count - 1] at the start of its [recvbuf]. *)
Definition MPI_Scatter (sendbuf : list A) (count : nat)
    (recvbufs : list (list A)) : list (list A) :=
  imap (fun r buf => write_block 0 (take count (drop (r * count) sendbuf)) buf)
       recvbufs.

(** Modelled from the spec: the body of [MPI_Gather], which the MPI library
    provides.  "After return, root's recvBuffer holds all ranks' blocks
    concatenated in rank order"; at the call site: "res[0..to-1] from rank 0,
    res[to..2*to-1] from rank 1, ...".  The first [count] elements sent by
    rank [r] land in the root's [recvbuf] at [r*count], for [r = 0, 1, ...]. *)
Fixpoint gather_from (r : nat) (sendbufs : list (list A)) (count : nat)
    (recvbuf : list A) : list A :=
  match sendbufs with
  | [] => recvbuf
  | s :: rest =>
      gather_from (S r) rest count (write_block (r * count) (take count s) recvbuf)
  end.

Definition MPI_Gather (sendbufs : list (list A)) (count : nat)
    (recvbuf : list A) : list A :=
  gather_from 0 sendbufs count recvbuf.
End Transport.

(** *** Reduction

    [MPI_Reduce(&send, &recv, 1, MPI_DOUBLE, op, 0, comm)] "combines values
    from all ranks into one result on the root rank".  The call site fixes the
    operator and the contributions; the order in which the library combines
    them is a [Schedule]: a binary tree whose leaves name the ranks. *)

(** A way to combine one contribution per rank, two values at a time. *)
Inductive Schedule :=
  | Leaf (rank : nat)
  | Node (l r : Schedule).

Fixpoint ranks_of (t : Schedule) : list nat :=
  match t with
  | Leaf rank => [rank]
  | Node l r => ranks_of l ++ ranks_of r
  end.

(** A schedule for a group of [P] ranks uses every rank's contribution once. *)
Definition valid_schedule (P : nat) (t : Schedule) : Prop :=
  ranks_of t ≡ₚ seq 0 P.

(** The schedule that folds the contributions by rank index:
    [((v_0 op v_1) op v_2) op ... op v_p]. *)
Fixpoint rank_order (p : nat) : Schedule :=
  match p with
  | O => Leaf 0
  | S p' => Node (rank_order p') (Leaf p)
  end.

Section Reduction.
Context {D : Type}.

(** Modelled from the spec: the body of [MPI_Reduce], which the MPI library
    provides.  The root receives the contributions of the ranks combined
    with [op], two values at a time, along the schedule [t].  The
    specification fixes the schedule: "Reduction order is fixed by rank index
    (0, 1, 2, ...)", which is [rank_order (P - 1)].  The programs are run
    under any schedule, since an MPI library may follow another one. *)
Fixpoint MPI_Reduce (op : D -> D -> D) (sendvals : list D) (t : Schedule)
    : option D :=
  match t with
  | Leaf rank => sendvals !! rank
  | Node l r =>
      a ← MPI_Reduce op sendvals l;
      b ← MPI_Reduce op sendvals r;
      Some (op a b)
  end.

(** The order the specification fixes for a reduce: "root holds
    sendValue[0] op sendValue[1] op ... op sendValue[P-1] in rank order",
    combined from left to right. *)
Definition in_rank_order (op : D -> D -> D) (sendvals : list D) : option D :=
  match sendvals with
  | [] => None
  | v0 :: rest => Some (foldl op v0 rest)
  end.
End Reduction.

(** Every rank of a collective passes the same count; anything else is
    undefined. *)
Definition agree (counts : list Z) : option Z :=
  match counts with
  | [] => None
  | c :: rest => if forallb (Z.eqb c) rest then Some c else None
  end.

End MPI.

Import MPI.

(** ** MPI_Parallel_Sum *)

Module ParallelSum.

(** The sum the program is a parallel version of, term after term:
    [0 + 1 + ... + n]. *)
Definition sequential_sum (n : Z) : Z := foldl Z.add 0 (seqZ 0 (n + 1)).

Definition sumZ (l : list Z) : Z := foldr Z.add 0 l.

Section Program.
Context `{Arith D}.

(** [getInput]: the number typed on rank 0's console. *)
Definition getInput (stdin : D) : D := stdin.

(** [while (i <= n) { sum += i; i += step; }] *)
Fixpoint while_loop (fuel : nat) (i n step sum : D) : option D :=
  match fuel with
  | O => None
  | S fuel' =>
      if d_leb i n then while_loop fuel' (d_add i step) n step (d_add sum i)
      else Some sum
  end.

(** [double sum = 0; double i = (double)prank; double step = (double)csize;]
    and the loop. *)
Definition partial_sum (fuel : nat) (prank csize : Z) (n : D) : option D :=
  while_loop fuel (d_of_int prank) n (d_of_int csize) d_zero.

(** One run of [main] on [csize] ranks: the [tsum] that rank 0 prints.
    [junk prank] is what the uninitialised [n] of a non-root rank holds
    before the broadcast.  The two readings of [MPI_Wtime] and the MPI_MAX
    reduction of the durations (phases 4 and 7) do not touch the sum; that
    reduction is the one of MPI_Timing_Max below. *)
Definition main (csize : Z) (stdin : D) (junk : nat -> D) (sched : Schedule)
    (fuel : nat) : option D :=
  let ranks := seq 0 (Z.to_nat csize) in
  let n_bufs :=
    MPI_Bcast 1 0
      ((fun prank => if decide (prank = 0%nat) then [getInput stdin]
                     else [junk prank]) <$> ranks) in
  sums ← mapM (fun '(prank, buf) =>
                 n ← head buf; partial_sum fuel (Z.of_nat prank) csize n)
              (zip ranks n_bufs);
  MPI_Reduce d_add sums sched.
End Program.

End ParallelSum.

(** ** MPI_Timing_Max *)

Module TimingMax.

Section Program.
Context `{Arith D}.

(** One run of [main]: after the barrier every rank times its workload,
    [local_elapsed = local_finish - local_start] being two readings of that
    rank's clock, and the durations are reduced with MPI_MAX; the run returns
    the [elapsed] that rank 0 prints.  The list holds the [local_elapsed] of
    rank 0, 1, ... *)
Definition main (local_elapsed : list D) (sched : Schedule) : option D :=
  MPI_Reduce d_max local_elapsed sched.
End Program.

End TimingMax.

(** ** MPI_Bcast_Struct *)

Module BcastStruct.

Record SData {D : Type} := { i1 : Z; d1 : D; d2 : D }.
Arguments SData : clear implicits.

(** Rank 0 reads [s] from [stdin], every other rank starts from [junk prank];
    the result is the [s] each rank prints after the broadcast. *)
Definition main {D} (csize : Z) (stdin : SData D) (junk : nat -> SData D)
    : list (list (SData D)) :=
  MPI_Bcast 1 0
    ((fun prank => if decide (prank = 0%nat) then [stdin] else [junk prank])
       <$> seq 0 (Z.to_nat csize)).

End BcastStruct.

(** ** MPI_Matrix_Vector *)

Module MatrixVector.

Definition INT_MAX : Z := 2147483647.

(** [int to = dim / csize;] the rows of each rank. *)
Definition to (dim csize : Z) : Z := dim ÷ csize.

(** [int msize = dim * dim / csize;] the matrix elements of each rank. *)
Definition msize (dim csize : Z) : Z := dim * dim ÷ csize.

(** Where rank [prank]'s rows sit in the result: [MPI_Gather] with count [to]
    fills [res[prank*to .. prank*to + to - 1]] from rank [prank]. *)
Definition shard (dim csize prank : Z) : Z * Z :=
  (prank * to dim csize, to dim csize).

(** The allocations of [main]. *)
Inductive Site := at_vec | at_tmat | at_mat | at_lres | at_res.

(** What a run leaves behind: the collectives every rank issued, in order, the
    [res] of rank 0, the file it wrote and the status [main] returned. *)
Record Run {D : Type} := {
  issued : list Collective;
  res : list D;
  Result_txt : string;
  exit_code : Z;
}.
Arguments Run : clear implicits.

(** The line the specification asks of the result sink: the elements in
    order, one space between neighbours. *)
Definition spec_line {D} (fmt : D -> string) (res : list D) : string :=
  String.concat " " (fmt <$> res).

(** [printf("%lf", x)] for a double that holds the integer [x]. *)
Definition printf_lf (x : Z) : string := pretty x +:+ ".000000".

Section Program.
Context `{Arith D}.

(** [returnSize]: the number of doubles in the file. *)
Definition returnSize (file : list D) : Z := Z.of_nat (length file).

(** [loadVec], [loadMat]: [new double[cells]], filled from its start with
    the doubles of the file; a file longer than the array is written past
    its end, which is undefined. *)
Definition load (file : list D) (cells : nat) (junk : nat -> D) : option (list D) :=
  if decide (length file <= cells)%nat
  then Some (write_block 0 file (new_double junk cells))
  else None.

Definition loadVec (file : list D) (n : nat) := load file n.

(** In [loadMat] the size [n * n] is a product of two [int]: signed overflow
    is undefined. *)
Definition loadMat (file : list D) (n : nat) (junk : nat -> D)
    : option (list D) :=
  _ ← guard (Z.of_nat n * Z.of_nat n <= INT_MAX);
  load file (n * n) junk.

(** [for (int i = 0; i != n; ++i) fprintf(f, "%lf ", res[i]);] on the file
    just opened with "w"; [fmt] is the conversion [%lf], [todo] the number of
    iterations left and [f] what the file holds so far. *)
Fixpoint logRes_loop (fmt : D -> string) (todo i : nat) (res : list D)
    (f : string) : option string :=
  match todo with
  | O => Some f
  | S todo' =>
      x ← res !! i;
      logRes_loop fmt todo' (S i) res (f +:+ fmt x +:+ " ")
  end.

Definition logRes (fmt : D -> string) (res : list D) (n : nat) : option string :=
  logRes_loop fmt n 0 res "".

(** [for (int j = 0; j != dim; ++j) s += mat[i * dim + j] * vec[j];]
    [todo] is the number of iterations left, [dim - j]; a read outside an
    array is undefined. *)
Fixpoint row_loop (todo j : nat) (mat vec : list D) (i dim : nat) (s : D)
    : option D :=
  match todo with
  | O => Some s
  | S todo' =>
      a ← mat !! (i * dim + j)%nat;
      x ← vec !! j;
      row_loop todo' (S j) mat vec i dim (d_add s (d_mul a x))
  end.

(** [for (int i = 0; i != to; ++i) { double s = 0; ...; lres[i] = s; }]
    with [todo] the number of iterations left, [to - i]. *)
Fixpoint rows_loop (todo i : nat) (mat vec : list D) (dim : nat)
    (lres : list D) : option (list D) :=
  match todo with
  | O => Some lres
  | S todo' =>
      s ← row_loop dim 0 mat vec i dim d_zero;
      rows_loop todo' (S i) mat vec dim (<[i:=s]> lres)
  end.

(** The local compute kernel of one rank. *)
Definition local_multiply (mat vec : list D) (to dim : nat) (lres : list D)
    : option (list D) :=
  rows_loop to 0 mat vec dim lres.

(** The dot product of local row [i] with the vector, index by index. *)
Definition dot (N : nat) (block vector : list D) (i : nat) : D :=
  foldl (fun s j => d_add s (d_mul (nth (i * N + j) block d_zero)
                                   (nth j vector d_zero)))
        d_zero (seq 0 N).

(** One run of [main] on [csize] ranks, given the doubles of the vector and
    matrix files.  [junk_dim prank] is the uninitialised [dim] of a non-root
    rank, [junk prank site] the content of a fresh allocation. *)
Definition main (csize : Z) (vfile mfile : list D) (junk_dim : nat -> Z)
    (junk : nat -> Site -> nat -> D) (fmt : D -> string) : option (Run D) :=
  let ranks := seq 0 (Z.to_nat csize) in
  (* if (prank == 0) dim = returnSize(vfname);  MPI_Bcast(&dim, 1, ...) *)
  let dim_bufs :=
    MPI_Bcast 1 0
      ((fun prank => if decide (prank = 0%nat) then [returnSize vfile]
                     else [junk_dim prank]) <$> ranks) in
  dims ← mapM head dim_bufs;
  dim ← agree dims;
  let n := Z.to_nat dim in
  (* vec = loadVec(vfname, dim) on rank 0, new double[dim] elsewhere *)
  vec0 ← loadVec vfile n (junk 0%nat at_vec);
  let vecs :=
    MPI_Bcast n 0
      ((fun prank => if decide (prank = 0%nat) then vec0
                     else new_double (junk prank at_vec) n) <$> ranks) in
  (* tmat = loadMat(mfname, dim) on rank 0 *)
  tmat ← loadMat mfile n (junk 0%nat at_tmat);
  (* int msize = dim * dim / csize;  signed overflow is undefined *)
  _ ← guard (dim * dim <= INT_MAX);
  let msize := Z.to_nat (msize dim csize) in
  let mats :=
    MPI_Scatter tmat msize
      ((fun prank => new_double (junk prank at_mat) msize) <$> ranks) in
  (* int to = dim / csize;  the local multiplication *)
  let to := Z.to_nat (to dim csize) in
  lress ← mapM (fun '(prank, (mat, vec)) =>
                  local_multiply mat vec to n (new_double (junk prank at_lres) to))
               (zip ranks (zip mats vecs));
  (* res = new double[dim] on rank 0;  MPI_Gather;  logRes *)
  let res := MPI_Gather lress to (new_double (junk 0%nat at_res) n) in
  f ← logRes fmt res n;
  Some {| issued := [Bcast; Bcast; Scatter; Gather];
          res := res; Result_txt := f; exit_code := 0 |}.
End Program.

End MatrixVector.

(** ** OMP_Parallel_Sum and the schedule demonstration

    The OpenMP runtime is not among the sources.  The directive
    [#pragma omp parallel for reduction(+:sum)] is modelled as the sources
    describe it: "the loop iterations are divided among multiple threads",
    "each thread gets its own private copy of sum (initialized to 0 for the +
    operation)", "at the end of the loop, OpenMP combines all private sums
    into the single shared variable sum using the + operator".  Which thread
    runs which iteration, and in which order the copies are combined, is the
    runtime's choice (the schedule clause only steers it): [owner i] names
    the thread of iteration [i], and a [Schedule] the order of combination,
    leaf 0 being the shared variable and leaf k the copy of thread k - 1. *)

Module OpenMP.

Section Program.
Context `{Arith D}.

(** The iterations of [first .. last] that thread [k] of [threads] runs. *)
Definition iterations_of (threads : nat) (owner : Z -> nat) (first last : Z)
    (k : nat) : list Z :=
  filter (fun i => (owner i `mod` threads)%nat = k) (seqZ first (last - first + 1)).

(** One thread: [sum += (double)i] on its private copy, for its iterations. *)
Definition private_sum (mine : list Z) : D :=
  foldl (fun sum i => d_add sum (d_of_int i)) d_zero mine.

(** The loop [for (i = 1; i <= n; i++) sum += i;] under the directive, on
    [threads] threads (a positive number, or the directive is not valid). *)
Definition parallel_for_reduction (threads : Z) (sum : D) (n : Z)
    (owner : Z -> nat) (t : Schedule) : option D :=
  _ ← guard (1 <= threads);
  MPI_Reduce d_add
    (sum :: (private_sum ∘ iterations_of (Z.to_nat threads) owner 1 n
               <$> seq 0 (Z.to_nat threads))) t.

(** [main] of OMP_Parallel_Sum: [tc] is [strtol(argv[1], NULL, 10)], [stdin]
    the number read into [n], [cast_int] the conversion [(int)n]; the run
    returns the value printed after "Sum is".  The counter [i] is an [int]:
    with [(int)n = INT_MAX] the last [i++] overflows, which is undefined. *)
Definition main (cast_int : D -> Z) (tc : Z) (stdin : D) (owner : Z -> nat)
    (t : Schedule) : option D :=
  _ ← guard (cast_int stdin < MatrixVector.INT_MAX);
  parallel_for_reduction tc d_zero (cast_int stdin) owner t.

(** What the schedule demonstration prints. *)
Inductive Output :=
  | Usage (program : string)
  | Sums (static dynamic guided runtime : D).

(** [main] of the schedule demonstration: the usage line and status 1 unless
    [argc == 2], else the four sums and status 0.  [strtol] is the conversion
    of [argv[1]], [threads] is [omp_get_max_threads()]; every loop has its
    own distribution of the iterations and its own order of combination.
    The counter [i] is a [long]: with [n = LONG_MAX] the last [++i]
    overflows, which is undefined. *)
Definition schedule_demo (LONG_MAX : Z) (strtol : string -> Z) (threads : Z)
    (argv : list string) (owners : list (Z -> nat)) (ts : list Schedule)
    : option (Output * Z) :=
  match argv with
  | [program; arg] =>
      let n := strtol arg in
      match owners, ts with
      | [o1; o2; o3; o4], [t1; t2; t3; t4] =>
          _ ← guard (n < LONG_MAX);
          s1 ← parallel_for_reduction threads d_zero n o1 t1;
          s2 ← parallel_for_reduction threads d_zero n o2 t2;
          s3 ← parallel_for_reduction threads d_zero n o3 t3;
          s4 ← parallel_for_reduction threads d_zero n o4 t4;
          Some (Sums s1 s2 s3 s4, 0)
      | _, _ => None
      end
  | program :: _ => Some (Usage program, 1)
  | [] => None
  end.
End Program.

End OpenMP.

(** ** OMP_Barrier

    The block of the parallel region, one thread of the team at a time: a
    thread prints its first line, arrives at the barrier, is released once
    "ALL threads have arrived", prints its second line and reaches the end of
    the region.  "Threads may reach this printf() at different times": the
    order in which the threads take their steps is the runtime's choice. *)

Module OMPBarrier.

(** Where a thread stands: before the first [printf], waiting at
    [#pragma omp barrier], before the second [printf], at the end of the
    region. *)
Inductive Point := at_printf1 | at_barrier | at_printf2 | at_end.

#[export] Instance Point_eq_dec : EqDecision Point.
Proof. solve_decision. Defined.

(** A line of the console: "Printf 1 of <thread> thread" or
    "Printf 2 of <thread> thread". *)
Inductive Line := Printf1 (thread : nat) | Printf2 (thread : nat).

(** The team: the point of every thread, by [omp_get_thread_num()], and the
    console so far. *)
Record Team := { points : list Point; stdout : list Line }.

(** [#pragma omp parallel]: every thread enters the block. *)
Definition parallel (threads : nat) : Team :=
  {| points := replicate threads at_printf1; stdout := [] |}.

(** The next step of thread [k], if it can take one: a thread at the barrier
    is blocked while a thread of the team has not arrived. *)
Definition thread_step (k : nat) (s : Team) : option Team :=
  match points s !! k with
  | Some at_printf1 =>
      Some {| points := <[k:=at_barrier]> (points s);
              stdout := stdout s ++ [Printf1 k] |}
  | Some at_barrier =>
      if decide (at_printf1 ∈ points s) then None
      else Some {| points := <[k:=at_printf2]> (points s);
                   stdout := stdout s |}
  | Some at_printf2 =>
      Some {| points := <[k:=at_end]> (points s);
              stdout := stdout s ++ [Printf2 k] |}
  | Some at_end | None => None
  end.

(** The threads take their steps in the order [order] names them. *)
Fixpoint run (order : list nat) (s : Team) : option Team :=
  match order with
  | [] => Some s
  | k :: order' => s' ← thread_step k s; run order' s'
  end.

(** [main]: the region ends when every thread has reached its end; the
    console and the status 0. *)
Definition main (threads : nat) (order : list nat) : option (list Line * Z) :=
  s ← run order (parallel threads);
  if decide (Forall (fun p => p = at_end) (points s))
  then Some (stdout s, 0) else None.

(** The steps a thread has taken. *)
Definition steps_taken (p : Point) : nat :=
  match p with
  | at_printf1 => 0
  | at_barrier => 1
  | at_printf2 => 2
  | at_end => 3
  end.

(** What holds of the team at every moment of a run: the console is the
    first lines of the threads [l1] followed by the second lines of the
    threads [l2], [l1] being the threads that have arrived at the barrier and
    [l2] those at the end of the region; and while a thread has not arrived,
    no thread is past the barrier. *)
Definition team_invariant (s : Team) : Prop :=
  exists l1 l2,
    stdout s = (Printf1 <$> l1) ++ (Printf2 <$> l2) /\
    NoDup l1 /\ NoDup l2 /\
    (forall k, k ∈ l1 <->
               exists p, points s !! k = Some p /\ p <> at_printf1) /\
    (forall k, k ∈ l2 <-> points s !! k = Some at_end) /\
    (at_printf1 ∈ points s ->
     forall k p, points s !! k = Some p -> p = at_printf1 \/ p = at_barrier).

End OMPBarrier.

(** * Properties *)

(** ** Buffers *)

Section Buffers.
Context {A : Type}.
Implicit Types (buf blk src : list A) (bufs : list (list A)).

Lemma write_block_length off blk buf :
  length (write_block off blk buf) = length buf.
Proof. apply length_inserts. Qed.

(** A block as long as the buffer replaces it. *)
Lemma write_block_all blk buf :
  length blk = length buf -> write_block 0 blk buf = blk.
Proof.
  intros Hlen. unfold write_block.
  rewrite <- (app_nil_r blk) at 1. by apply list_inserts_0_l.
Qed.

(** A shorter block replaces a prefix. *)
Lemma write_block_prefix blk buf :
  (length blk <= length buf)%nat ->
  write_block 0 blk buf = blk ++ drop (length blk) buf.
Proof.
  intros Hlen. unfold write_block.
  rewrite <- (take_drop (length blk) buf) at 1.
  apply list_inserts_0_r. rewrite length_take. lia.
Qed.

Lemma MPI_Bcast_length count root bufs :
  length (MPI_Bcast count root bufs) = length bufs.
Proof.
  unfold MPI_Bcast. destruct (bufs !! root); [|done]. by rewrite length_imap.
Qed.

Lemma MPI_Bcast_lookup count root bufs src r buf :
  bufs !! root = Some src -> bufs !! r = Some buf ->
  (count <= length src)%nat -> (count <= length buf)%nat ->
  MPI_Bcast count root bufs !! r = Some (take count src ++ drop count buf).
Proof.
  intros Hroot Hr Hsrc Hbuf. unfold MPI_Bcast. rewrite Hroot.
  rewrite list_lookup_imap, Hr. simpl. case_decide as Heq.
  - subst r. rewrite Hroot in Hr. injection Hr as ->.
    by rewrite take_drop.
  - rewrite write_block_prefix; rewrite length_take; [|lia].
    by replace (count `min` length src)%nat with count by lia.
Qed.
End Buffers.

(** ** Broadcast *)

Lemma MPI_Bcast_replicate {A} (bufs : list (list A)) (root count : nat) src :
  bufs !! root = Some src ->
  (forall buf, buf ∈ bufs -> length buf = count) ->
  MPI_Bcast count root bufs = replicate (length bufs) src.
Proof.
  intros Hsrc Hcount.
  assert (Hlen : forall r buf, bufs !! r = Some buf -> length buf = count).
  { intros r buf Hr. apply Hcount. by eapply list_elem_of_lookup_2. }
  apply list_eq. intros r.
  destruct (decide (r < length bufs)%nat) as [Hr|Hr].
  - destruct (lookup_lt_is_Some_2 bufs r Hr) as [buf Hbuf].
    rewrite (MPI_Bcast_lookup count root bufs src r buf) by
      (rewrite ?(Hlen _ _ Hsrc), ?(Hlen _ _ Hbuf); done).
    rewrite take_ge, drop_ge, app_nil_r by
      (rewrite ?(Hlen _ _ Hsrc), ?(Hlen _ _ Hbuf); done).
    by rewrite lookup_replicate_2.
  - rewrite !lookup_ge_None_2; [done| |].
    + rewrite length_replicate. lia.
    + rewrite MPI_Bcast_length. lia.
Qed.

(** The buffers a program hands to its first broadcast: the root's value on
    rank 0, uninitialised memory elsewhere. *)
Lemma MPI_Bcast_from_rank0 {A} (P : nat) (v : A) (junk : nat -> A) :
  MPI_Bcast 1 0
    ((fun prank => if decide (prank = 0%nat) then [v] else [junk prank]) <$> seq 0 P)
  = replicate P [v].
Proof.
  destruct P as [|P]; [done|].
  rewrite (MPI_Bcast_replicate _ 0 1 [v]).
  - by rewrite length_fmap, length_seq.
  - done.
  - intros buf [prank [-> _]]%list_elem_of_fmap. by case_decide.
Qed.

(** X2: after the broadcast of MPI_Bcast_Struct each of the [csize] ranks
    holds, and prints, the struct that rank 0 read, whatever its own [s] held
    before. *)
Lemma BcastStruct_main {D} (csize : Z) (stdin : BcastStruct.SData D) junk :
  BcastStruct.main csize stdin junk = replicate (Z.to_nat csize) [stdin].
Proof. apply MPI_Bcast_from_rank0. Qed.

(** C8: for every group and every root rank in [0, groupSize), after a
    broadcast of [count] elements every rank's buffer holds exactly what the
    root's buffer held at call time: whatever the non-root ranks held before
    is gone, and the root's own buffer is unchanged. *)
Theorem broadcast_delivers_root_buffer {A} (bufs : list (list A)) (root count : nat) :
  (root < length bufs)%nat ->
  (forall buf, buf ∈ bufs -> length buf = count) ->
  exists src, bufs !! root = Some src /\
    MPI_Bcast count root bufs !! root = Some src /\
    MPI_Bcast count root bufs = replicate (length bufs) src.
Proof.
  intros Hroot Hcount.
  destruct (lookup_lt_is_Some_2 bufs root Hroot) as [src Hsrc].
  exists src. split; [done|].
  rewrite (MPI_Bcast_replicate bufs root count src) by done.
  split; [|done]. by apply lookup_replicate_2.
Qed.

Lemma broadcast_delivers_root_buffer_witness :
  exists src, [[1; 2]; [3; 4]; [5; 6]] !! 1%nat = Some src /\
    MPI_Bcast 2 1 [[1; 2]; [3; 4]; [5; 6]] !! 1%nat = Some src /\
    MPI_Bcast 2 1 [[1; 2]; [3; 4]; [5; 6]] = replicate 3 src.
Proof.
  apply (broadcast_delivers_root_buffer [[1; 2]; [3; 4]; [5; 6]] 1 2).
  - simpl. lia.
  - intros buf Hbuf. repeat (apply elem_of_cons in Hbuf as [->|Hbuf]; [done|]).
    by apply elem_of_nil in Hbuf.
Defined.

(** ** Reduction *)

Lemma ranks_of_rank_order p : ranks_of (rank_order p) = seq 0 (S p).
Proof.
  induction p as [|p IH]; [done|].
  change (ranks_of (rank_order (S p))) with (ranks_of (rank_order p) ++ [S p]).
  rewrite IH. by rewrite (seq_S (S p)).
Qed.

Lemma ranks_of_nonempty t : ranks_of t <> [].
Proof.
  induction t as [rank|l IHl r _]; simpl; [done|].
  intros [Hl _]%app_eq_nil. by apply IHl.
Qed.

Lemma rank_order_valid p : valid_schedule (S p) (rank_order p).
Proof. unfold valid_schedule. by rewrite ranks_of_rank_order. Qed.

Section ReductionOrder.
Context {D : Type} (op : D -> D -> D).
Implicit Types (vals : list D) (t : Schedule).



Hypothesis op_assoc : forall a b c, op a (op b c) = op (op a b) c.

Lemma foldl_op_assoc a b l : foldl op (op a b) l = op a (foldl op b l).
Proof.
  revert b. induction l as [|c l IH]; intros b; [done|].
  simpl. by rewrite <- op_assoc, IH.
Qed.

(** A schedule combines the contributions of its leaves from left to
    right. *)
Lemma MPI_Reduce_leaves vals t d :
  Forall (fun rank => (rank < length vals)%nat) (ranks_of t) ->
  MPI_Reduce op vals t =
    in_rank_order op ((fun rank => nth rank vals d) <$> ranks_of t).
Proof.
  induction t as [rank|l IHl r IHr]; simpl; intros Hin.
  - rewrite Forall_singleton in Hin.
    destruct (nth_lookup_or_length vals rank d) as [->|]; [done|lia].
  - apply Forall_app in Hin as [Hl Hr].
    rewrite IHl, IHr by done. rewrite fmap_app.
    destruct (ranks_of l) as [|rl rsl] eqn:El; [by apply ranks_of_nonempty in El|].
    destruct (ranks_of r) as [|rr rsr] eqn:Er; [by apply ranks_of_nonempty in Er|].
    simpl. f_equal. rewrite foldl_app. simpl. by rewrite foldl_op_assoc.
Qed.

Hypothesis op_comm : forall a b, op a b = op b a.

(** With an associative and commutative operator the fold does not depend
    on which rank holds which value. *)
Lemma in_rank_order_perm vals vals' :
  vals ≡ₚ vals' -> in_rank_order op vals = in_rank_order op vals'.
Proof.
  induction 1 as [|x l l' Hperm IH|x y l|l l' l'' _ IH1 _ IH2]; simpl.
  - done.
  - destruct l as [|y l], l' as [|y' l']; simpl in *.
    + done.
    + by apply Permutation_nil_cons in Hperm.
    + symmetry in Hperm. by apply Permutation_nil_cons in Hperm.
    + injection IH as IH. by rewrite !foldl_op_assoc, IH.
  - by rewrite (op_comm y x).
  - congruence.
Qed.

(** Every schedule over the whole group yields the fold by rank index. *)
Lemma MPI_Reduce_any_schedule vals t :
  valid_schedule (length vals) t ->
  MPI_Reduce op vals t = in_rank_order op vals.
Proof.
  unfold valid_schedule. intros Hperm.
  destruct vals as [|d vals'] eqn:Evals.
  { apply Permutation_nil_r in Hperm. by apply ranks_of_nonempty in Hperm. }
  rewrite <- Evals in *.
  rewrite (MPI_Reduce_leaves vals t d).
  - apply in_rank_order_perm. rewrite Hperm.
    apply eq_subrelation; [apply _|]. apply list_eq. intros i.
    rewrite list_lookup_fmap.
    destruct (decide (i < length vals)%nat) as [Hi|Hi].
    + rewrite lookup_seq_lt by done. simpl.
      by destruct (nth_lookup_or_length vals i d) as [->|]; [|lia].
    + rewrite lookup_seq_ge by lia. simpl. by rewrite lookup_ge_None_2 by lia.
  - apply Forall_forall. intros rank Hrank.
    rewrite Hperm in Hrank. apply elem_of_seq in Hrank. lia.
Qed.
End ReductionOrder.


(** Why the order has to be fixed: the sum of binary64 is not associative, and
    another schedule over the same three contributions delivers another
    value. *)
Example reduce_order_shows_in_binary64 :
  MPI_Reduce PrimFloat.add [9007199254740992; 1; 1]%float (rank_order 2)
    = Some 9007199254740992%float /\
  MPI_Reduce PrimFloat.add [9007199254740992; 1; 1]%float
    (Node (Leaf 0) (Node (Leaf 1) (Leaf 2)))
    = Some 9007199254740994%float.
Proof. split; reflexivity. Qed.

(** ** Maximum of the local durations *)

Section MaxReduction.
Context `{Arith D}.
Hypothesis leb_total : forall a b : D, d_leb a b = true \/ d_leb b a = true.
Hypothesis leb_antisym :
  forall a b : D, d_leb a b = true -> d_leb b a = true -> a = b.
Hypothesis leb_trans :
  forall a b c : D, d_leb a b = true -> d_leb b c = true -> d_leb a c = true.

Lemma d_leb_refl (a : D) : d_leb a a = true.
Proof. by destruct (leb_total a a). Qed.

Lemma d_max_ub_l (a b : D) : d_leb a (d_max a b) = true.
Proof. unfold d_max. destruct (d_leb a b) eqn:E; [done|apply d_leb_refl]. Qed.

Lemma d_max_ub_r (a b : D) : d_leb b (d_max a b) = true.
Proof.
  unfold d_max. destruct (d_leb a b) eqn:E; [apply d_leb_refl|].
  destruct (leb_total a b); congruence.
Qed.

Lemma d_max_lub (a b c : D) :
  d_leb a c = true -> d_leb b c = true -> d_leb (d_max a b) c = true.
Proof. unfold d_max. by destruct (d_leb a b). Qed.

Lemma d_max_comm (a b : D) : d_max a b = d_max b a.
Proof.
  apply leb_antisym; apply d_max_lub; auto using d_max_ub_l, d_max_ub_r.
Qed.

Lemma d_max_assoc (a b c : D) : d_max a (d_max b c) = d_max (d_max a b) c.
Proof.
  apply leb_antisym; repeat apply d_max_lub;
    eauto using d_max_ub_l, d_max_ub_r, leb_trans.
Qed.

Lemma d_max_choice (a b : D) : d_max a b = a \/ d_max a b = b.
Proof. unfold d_max. destruct (d_leb a b); auto. Qed.

(** The left-to-right fold with MPI_MAX is a greatest element. *)
Lemma foldl_d_max_greatest (v0 : D) (rest : list D) :
  foldl d_max v0 rest ∈ v0 :: rest /\
  forall d, d ∈ v0 :: rest -> d_leb d (foldl d_max v0 rest) = true.
Proof.
  revert v0. induction rest as [|v rest IH]; intros v0; simpl.
  - split; [apply list_elem_of_here|].
    intros d ->%list_elem_of_singleton. apply d_leb_refl.
  - destruct (IH (d_max v0 v)) as [Hin Hub]. split.
    + apply elem_of_cons in Hin as [->|Hin].
      * destruct (d_max_choice v0 v) as [->| ->];
          [apply list_elem_of_here | apply list_elem_of_further, list_elem_of_here].
      * by do 2 apply list_elem_of_further.
    + assert (Hm : d_leb (d_max v0 v) (foldl d_max (d_max v0 v) rest) = true)
        by apply Hub, list_elem_of_here.
      intros d [->|[->|Hd]%elem_of_cons]%elem_of_cons.
      * eapply leb_trans; [apply d_max_ub_l|apply Hm].
      * eapply leb_trans; [apply d_max_ub_r|apply Hm].
      * by apply Hub, list_elem_of_further.
Qed.

Lemma TimingMax_main_greatest (durations : list D) (t : Schedule) :
  valid_schedule (length durations) t ->
  exists m, TimingMax.main durations t = Some m /\ m ∈ durations /\
    forall d, d ∈ durations -> d_leb d m = true.
Proof.
  intros Ht. unfold TimingMax.main.
  rewrite (MPI_Reduce_any_schedule d_max d_max_assoc d_max_comm) by done.
  destruct durations as [|v0 rest].
  { apply Permutation_nil_r in Ht. by apply ranks_of_nonempty in Ht. }
  exists (foldl d_max v0 rest). split; [done|]. apply foldl_d_max_greatest.
Qed.

Lemma TimingMax_main_perm (durations durations' : list D) (t t' : Schedule) :
  durations' ≡ₚ durations ->
  valid_schedule (length durations) t ->
  valid_schedule (length durations') t' ->
  TimingMax.main durations' t' = TimingMax.main durations t.
Proof.
  intros Hperm Ht Ht'. unfold TimingMax.main.
  rewrite !(MPI_Reduce_any_schedule d_max d_max_assoc d_max_comm) by done.
  by apply in_rank_order_perm; auto using d_max_assoc, d_max_comm.
Qed.
End MaxReduction.

(** C7: for every P >= 1 and every assignment of per-rank durations
    d_0 .. d_{P-1}, the reduction with max delivers exactly
    max(d_0, ..., d_{P-1}) to the coordinator: one of the durations, not below
    any of them; and the result is the same under any permutation of which
    rank holds which duration. *)
Theorem max_reduce_is_maximum `{Arith D} (durations : list D) (t : Schedule) :
  (forall a b : D, d_leb a b = true \/ d_leb b a = true) ->
  (forall a b : D, d_leb a b = true -> d_leb b a = true -> a = b) ->
  (forall a b c : D, d_leb a b = true -> d_leb b c = true -> d_leb a c = true) ->
  valid_schedule (length durations) t ->
  exists m, TimingMax.main durations t = Some m /\
    m ∈ durations /\
    (forall d, d ∈ durations -> d_leb d m = true) /\
    (forall durations' t', durations' ≡ₚ durations ->
       valid_schedule (length durations') t' ->
       TimingMax.main durations' t' = Some m).
Proof.
  intros Htotal Hantisym Htrans Ht.
  destruct (TimingMax_main_greatest Htotal Hantisym Htrans durations t Ht)
    as (m & Hm & Hin & Hub).
  exists m. repeat split; try done.
  intros durations' t' Hperm Ht'. rewrite <- Hm.
  by apply TimingMax_main_perm.
Qed.

Lemma max_reduce_is_maximum_witness :
  exists m, TimingMax.main [3; 7; 5] (rank_order 2) = Some m /\
    m ∈ [3; 7; 5] /\
    (forall d, d ∈ [3; 7; 5] -> d_leb d m = true) /\
    (forall durations' t', durations' ≡ₚ [3; 7; 5] ->
       valid_schedule (length durations') t' ->
       TimingMax.main durations' t' = Some m).
Proof.
  apply (max_reduce_is_maximum [3; 7; 5] (rank_order 2)).
  - intros a b. simpl. rewrite !Z.leb_le. lia.
  - intros a b. simpl. rewrite !Z.leb_le. lia.
  - intros a b c. simpl. rewrite !Z.leb_le. lia.
  - apply (rank_order_valid 2).
Defined.

Example TimingMax_scenario :
  TimingMax.main [3; 7; 5] (rank_order 2) = Some 7 /\
  TimingMax.main [7; 5; 3] (Node (Leaf 2) (Node (Leaf 0) (Leaf 1))) = Some 7 /\
  TimingMax.main [0.25; 1.5; 0.75]%float (rank_order 2) = Some 1.5%float.
Proof. repeat split; reflexivity. Qed.

(** ** The cyclic range sum *)

Import ParallelSum.

(** An upper bound below the start: the loop body never runs. *)
Lemma while_loop_exit `{Arith D} (fuel : nat) (i n step sum : D) :
  d_leb i n = false -> while_loop (S fuel) i n step sum = Some sum.
Proof. intros Hle. simpl. by rewrite Hle. Qed.

Lemma foldl_add_sumZ (a : Z) (l : list Z) : foldl Z.add a l = a + sumZ l.
Proof.
  revert a. induction l as [|x l IH]; intros a; simpl; [lia|].
  rewrite IH. unfold sumZ. simpl. lia.
Qed.

Lemma sumZ_app (l k : list Z) : sumZ (l ++ k) = sumZ l + sumZ k.
Proof. unfold sumZ. induction l as [|x l IH]; simpl; lia. Qed.

Lemma sumZ_zeros (l : list Z) : Forall (fun x => x = 0) l -> sumZ l = 0.
Proof. unfold sumZ. induction 1; simpl; lia. Qed.

Section CyclicSum.
Variables (n step : Z).
Hypothesis step_pos : 1 <= step.

(** The accumulator only carries what was added before. *)
Lemma while_loop_acc (fuel : nat) (i sum : Z) :
  while_loop fuel i n step sum = Z.add sum <$> while_loop fuel i n step 0.
Proof.
  revert i sum. induction fuel as [|fuel IH]; intros i sum; [done|].
  simpl. destruct (i <=? n); [|simpl; f_equal; lia].
  rewrite (IH _ (sum + i)), (IH _ (0 + i)).
  destruct (while_loop fuel (i + step) n step 0); simpl; [f_equal; lia|done].
Qed.

(** Enough fuel: one unit for every integer from the start to the bound,
    and one for the test that leaves the loop. *)
Lemma while_loop_fuel (fuel fuel' : nat) (i : Z) :
  n - i + 1 < Z.of_nat fuel -> n - i + 1 < Z.of_nat fuel' ->
  (1 <= fuel)%nat -> (1 <= fuel')%nat ->
  while_loop fuel i n step 0 = while_loop fuel' i n step 0.
Proof.
  revert fuel' i. induction fuel as [|fuel IH]; intros fuel' i H1 H2 H3 H4; [lia|].
  destruct fuel' as [|fuel']; [lia|]. simpl.
  destruct (Z.leb_spec i n) as [Hle|Hgt]; [|done].
  rewrite (while_loop_acc fuel), (while_loop_acc fuel').
  by rewrite (IH fuel') by lia.
Qed.

Lemma while_loop_total (fuel : nat) (i sum : Z) :
  n - i + 1 < Z.of_nat fuel -> (1 <= fuel)%nat ->
  is_Some (while_loop fuel i n step sum).
Proof.
  revert i sum. induction fuel as [|fuel IH]; intros i sum H1 H2; [lia|].
  simpl. destruct (Z.leb_spec i n) as [Hle|Hgt]; [|done].
  apply IH; lia.
Qed.

(** What the loop started at [i] adds up. *)
Local Abbreviation cyclic fuel i := (default 0 (while_loop fuel i n step 0)).

Lemma cyclic_above (fuel : nat) (i : Z) : n < i -> cyclic fuel i = 0.
Proof.
  intros Hi. destruct fuel as [|fuel]; [done|]. simpl.
  by destruct (Z.leb_spec i n); [lia|].
Qed.

Lemma cyclic_step (fuel : nat) (i : Z) :
  i <= n -> n - i + 1 < Z.of_nat fuel ->
  cyclic fuel i = i + cyclic fuel (i + step).
Proof.
  intros Hi Hfuel. destruct fuel as [|fuel]; [lia|].
  destruct (decide (n < i + step)) as [Hlast|Hmore].
  - rewrite (cyclic_above (S fuel) (i + step)) by done.
    simpl. destruct (Z.leb_spec i n); [|lia].
    destruct fuel as [|fuel]; simpl; [lia|].
    destruct (Z.leb_spec (i + step) n); [lia|]. simpl. lia.
  - rewrite (while_loop_fuel (S fuel) fuel (i + step)) by lia.
    simpl. destruct (Z.leb_spec i n); [|lia].
    rewrite while_loop_acc.
    destruct (while_loop_total fuel (i + step) 0) as [v Hv]; [lia..|].
    rewrite Hv. simpl. lia.
Qed.

(** [step] consecutive starting points cover every integer from the first
    of them up to the bound, each once. *)
Lemma cyclic_window (dist : nat) (a : Z) (fuel : nat) :
  n - a < Z.of_nat dist -> n - a + 1 < Z.of_nat fuel ->
  sumZ ((fun i => cyclic fuel i) <$> seqZ a step) = sumZ (seqZ a (n - a + 1)).
Proof.
  revert a. induction dist as [|dist IH]; intros a Hdist Hfuel.
  - rewrite (seqZ_nil a (n - a + 1)) by lia.
    apply sumZ_zeros, Forall_fmap, Forall_forall.
    intros i [k Hk]%list_elem_of_lookup_1.
    apply lookup_seqZ in Hk as [-> Hk]. apply cyclic_above. lia.
  - destruct (decide (n < a)) as [Habove|Hbelow].
    { apply IH; lia. }
    rewrite (seqZ_cons a step), (seqZ_cons a (n - a + 1)) by lia.
    rewrite fmap_cons. unfold sumZ at 1 2. simpl.
    fold (sumZ (seqZ (Z.succ a) (Z.pred (n - a + 1)))).
    rewrite cyclic_step by lia.
    specialize (IH (Z.succ a)).
    replace (n - Z.succ a + 1) with (Z.pred (n - a + 1)) in IH by lia.
    rewrite <- IH by lia.
    assert (Hsnoc : seqZ (Z.succ a) step
                    = seqZ (Z.succ a) (Z.pred step) ++ [a + step]).
    { replace step with (Z.pred step + 1) at 1 by lia.
      rewrite seqZ_app by lia.
      replace (Z.succ a + Z.pred step) with (a + step) by lia.
      f_equal. }
    rewrite Hsnoc, fmap_app, sumZ_app. unfold sumZ. simpl. lia.
Qed.

(** The partial sums of the ranks [0 .. step-1] add up to the sequential
    sum. *)
Lemma cyclic_ranks_total (fuel : nat) :
  n + 1 < Z.of_nat fuel ->
  sumZ ((fun i => cyclic fuel i) <$> seqZ 0 step) = sequential_sum n.
Proof.
  intros Hfuel. unfold sequential_sum. rewrite foldl_add_sumZ.
  destruct (decide (n < 0)) as [Hneg|Hpos].
  - rewrite (cyclic_window 0 0 fuel) by lia. by rewrite Z.sub_0_r.
  - rewrite (cyclic_window (S (Z.to_nat n)) 0 fuel) by lia. by rewrite Z.sub_0_r.
Qed.
End CyclicSum.

Lemma mapM_fmap_total {A B C} (f : B -> option C) (g : A -> B) (h : A -> C)
    (l : list A) :
  (forall x, x ∈ l -> f (g x) = Some (h x)) ->
  mapM f (g <$> l) = Some (h <$> l).
Proof.
  induction l as [|x l IH]; intros Hf; [done|].
  rewrite !fmap_cons. simpl.
  rewrite (Hf x) by apply list_elem_of_here. simpl.
  rewrite IH; [done|]. intros y Hy. by apply Hf, list_elem_of_further.
Qed.

Lemma in_rank_order_add (sums : list Z) :
  sums <> [] -> in_rank_order Z.add sums = Some (sumZ sums).
Proof.
  destruct sums as [|v0 rest]; [done|]. intros _. simpl.
  by rewrite foldl_add_sumZ.
Qed.

(** The partial sums every rank hands to the reduction. *)
Lemma ParallelSum_partial_sums (csize n : Z) (junk : nat -> Z) (fuel : nat)
    (sums : nat -> Z) :
  (forall prank, (prank < Z.to_nat csize)%nat ->
     partial_sum fuel (Z.of_nat prank) csize n = Some (sums prank)) ->
  forall sched,
    main csize n junk sched fuel
    = MPI_Reduce Z.add (sums <$> seq 0 (Z.to_nat csize)) sched.
Proof.
  intros Hsums sched. unfold main, getInput.
  rewrite MPI_Bcast_from_rank0.
  rewrite zip_with_replicate_r_eq by apply length_seq.
  rewrite (mapM_fmap_total _ _ sums); [done|].
  intros prank Hprank%elem_of_seq. simpl. apply Hsums. lia.
Qed.

(** The run of [main] in exact arithmetic: every schedule of the reduction
    delivers the sequential sum. *)
Lemma ParallelSum_main_total (csize n : Z) (junk : nat -> Z) (sched : Schedule)
    (fuel : nat) :
  1 <= csize ->
  valid_schedule (Z.to_nat csize) sched ->
  n + 1 < Z.of_nat fuel -> (1 <= fuel)%nat ->
  main csize n junk sched fuel = Some (sequential_sum n).
Proof.
  intros Hcsize Hsched Hfuel Hfuel1.
  rewrite (ParallelSum_partial_sums csize n junk fuel
             (fun prank => default 0 (while_loop fuel (Z.of_nat prank) n csize 0))).
  - rewrite (MPI_Reduce_any_schedule Z.add Z.add_assoc Z.add_comm)
      by (by rewrite length_fmap, length_seq).
    rewrite in_rank_order_add.
    + f_equal. rewrite <- (cyclic_ranks_total n csize Hcsize fuel Hfuel).
      f_equal. unfold seqZ. rewrite <- list_fmap_compose.
      apply list_fmap_ext. intros _ prank _. simpl. by rewrite Z.add_0_r.
    + intros Hnil%(f_equal length).
      rewrite length_fmap, length_seq in Hnil. simpl in Hnil. lia.
  - intros prank _. unfold partial_sum. simpl.
    destruct (while_loop_total n csize Hcsize fuel (Z.of_nat prank) 0) as [v ->];
      [lia|done|done].
Qed.

(** The scenarios of the specification, run in binary64. *)
Example ParallelSum_scenario_binary64 :
  main 4 10%float (fun _ => 77%float) (rank_order 3) 12 = Some 55%float /\
  main 4 0%float (fun _ => 77%float) (rank_order 3) 2 = Some 0%float /\
  main 1 0%float (fun _ => 77%float) (rank_order 0) 2 = Some 0%float.
Proof. repeat split; reflexivity. Qed.

(** In binary64 the run agrees with the exact one on every group size up to
    8 and every integer bound up to 60 (all values stay far below 2^53). *)
Example ParallelSum_binary64_small :
  forallb (fun P : nat =>
    forallb (fun n : Z =>
      match main (Z.of_nat P) (d_of_int n : float) (fun _ => 77%float)
                 (rank_order (P - 1)) (Z.to_nat n + 2) with
      | Some tsum => PrimFloat.eqb tsum (d_of_int (sequential_sum n))
      | None => false
      end) (seqZ 0 61)) (seq 1 8) = true.
Proof. vm_compute. reflexivity. Qed.



Example ParallelSum_below_start_binary64 :
  @partial_sum float _ 1 3 4 2.5%float = Some 0%float /\
  main 4 (-0.5)%float (fun _ => 77%float) (rank_order 3) 1 = Some 0%float.
Proof. repeat split; reflexivity. Qed.

(** ** The contiguous shards of MPI_Matrix_Vector *)

Import MatrixVector.

Lemma to_div (dim csize : Z) : 0 <= dim -> 1 <= csize -> to dim csize = dim / csize.
Proof. intros. unfold to. apply Z.quot_div_nonneg; lia. Qed.

Lemma msize_div (dim csize : Z) :
  0 <= dim -> 1 <= csize -> msize dim csize = dim * dim / csize.
Proof. intros. unfold msize. apply Z.quot_div_nonneg; nia. Qed.

(** C2: for every N >= 0 and P >= 1 with N mod P = 0, the contiguous plan
    gives rank r the pair offset = r * (N / P), length = N / P, and these
    shards partition [0, N) exactly: every index lies in the shard of exactly
    one rank (no gaps, no overlaps) and no shard reaches outside [0, N). *)
Theorem contiguous_shards_partition (N P : Z) :
  0 <= N -> 1 <= P -> N mod P = 0 ->
  (forall r, shard N P r = (r * (N / P), N / P)) /\
  (forall k, 0 <= k < N ->
     exists r, 0 <= r < P /\
       (fst (shard N P r) <= k < fst (shard N P r) + snd (shard N P r)) /\
       forall r', 0 <= r' < P ->
         fst (shard N P r') <= k < fst (shard N P r') + snd (shard N P r') ->
         r' = r) /\
  (forall r k, 0 <= r < P ->
     fst (shard N P r) <= k < fst (shard N P r) + snd (shard N P r) ->
     0 <= k < N).
Proof.
  intros HN HP Hmod.
  assert (Hshard : forall r, shard N P r = (r * (N / P), N / P)).
  { intros r. unfold shard. by rewrite to_div. }
  assert (Hexact : N = P * (N / P)) by (apply Z.div_exact; lia).
  split; [done|]. split.
  - intros k Hk.
    assert (Hq : 0 < N / P) by nia.
    exists (k / (N / P)). rewrite Hshard. simpl.
    pose proof (Z.div_mod k (N / P)) as Hdm.
    pose proof (Z.mod_pos_bound k (N / P) Hq) as Hbound.
    assert (Hr : 0 <= k / (N / P)) by (apply Z.div_pos; lia).
    split; [split; [done|]|split; [nia|]].
    + apply Z.div_lt_upper_bound; [done|]. lia.
    + intros r' Hr'. rewrite to_div by done. intros Hin.
      apply (Z.div_unique k (N / P) r' (k - r' * (N / P))); lia.
  - intros r k Hr. rewrite Hshard. simpl. intros Hin.
    assert (0 <= N / P) by (apply Z.div_pos; lia). nia.
Qed.

Lemma contiguous_shards_partition_witness :
  (forall r, shard 12 4 r = (r * (12 / 4), 12 / 4)) /\
  (forall k, 0 <= k < 12 ->
     exists r, 0 <= r < 4 /\
       (fst (shard 12 4 r) <= k < fst (shard 12 4 r) + snd (shard 12 4 r)) /\
       forall r', 0 <= r' < 4 ->
         fst (shard 12 4 r') <= k < fst (shard 12 4 r') + snd (shard 12 4 r') ->
         r' = r) /\
  (forall r k, 0 <= r < 4 ->
     fst (shard 12 4 r) <= k < fst (shard 12 4 r) + snd (shard 12 4 r) ->
     0 <= k < 12).
Proof.
  apply (contiguous_shards_partition 12 4).
  - lia.
  - lia.
  - reflexivity.
Defined.

(** ** Scatter and gather *)

Section ScatterGather.
Context {A : Type}.
Implicit Types (buf blk sendbuf recvbuf : list A) (bufs : list (list A)).

(** A block written inside the buffer replaces exactly its own range. *)
Lemma write_block_middle off blk buf :
  (off + length blk <= length buf)%nat ->
  write_block off blk buf = take off buf ++ blk ++ drop (off + length blk) buf.
Proof.
  intros Hlen. unfold write_block.
  rewrite <- (take_drop off buf) at 1.
  replace off with (length (take off buf) + 0)%nat at 1
    by (rewrite length_take; lia).
  rewrite list_inserts_app_r. f_equal.
  fold (write_block 0 blk (drop off buf)).
  rewrite write_block_prefix by (rewrite length_drop; lia).
  by rewrite drop_drop.
Qed.

(** The root's receive buffer after the blocks of the ranks
    [r0, r0 + 1, ...] have landed. *)
Lemma gather_from_spec count bufs r0 recvbuf :
  Forall (fun s => (count <= length s)%nat) bufs ->
  ((r0 + length bufs) * count <= length recvbuf)%nat ->
  gather_from r0 bufs count recvbuf
  = take (r0 * count) recvbuf ++ concat (take count <$> bufs)
      ++ drop ((r0 + length bufs) * count) recvbuf.
Proof.
  revert r0 recvbuf. induction bufs as [|s rest IH]; intros r0 recvbuf Hs Hlen.
  - simpl. by rewrite Nat.add_0_r, take_drop.
  - apply Forall_cons in Hs as [Hs Hrest]. simpl in Hlen |- *.
    assert (Hblk : length (take count s) = count) by (rewrite length_take; lia).
    rewrite write_block_middle by (rewrite Hblk; lia). rewrite Hblk.
    rewrite IH; [|done|].
    + rewrite (app_assoc (take (r0 * count) recvbuf)).
      rewrite take_app_length' by (rewrite length_app, length_take, Hblk; lia).
      rewrite <- !app_assoc. do 3 f_equal.
      rewrite app_assoc.
      replace ((S r0 + length rest) * count)%nat
        with ((r0 * count + count) + length rest * count)%nat by lia.
      rewrite drop_app_add' by (rewrite length_app, length_take, Hblk; lia).
      rewrite drop_drop. f_equal. lia.
    + rewrite !length_app, length_take, Hblk, length_drop. lia.
Qed.

Lemma MPI_Gather_length bufs count recvbuf :
  length (MPI_Gather bufs count recvbuf) = length recvbuf.
Proof.
  unfold MPI_Gather. generalize 0%nat as r0. revert recvbuf.
  induction bufs as [|s rest IH]; intros recvbuf r0; [done|].
  simpl. by rewrite IH, write_block_length.
Qed.

Lemma length_concat_blocks bufs count :
  Forall (fun s => length s = count) bufs ->
  length (concat bufs) = (length bufs * count)%nat.
Proof.
  induction 1 as [|s rest Hs _ IH]; [done|].
  simpl. rewrite length_app, IH, Hs. lia.
Qed.

(** Whole blocks of [count] elements land one after the other; the rest of
    the receive buffer is not written. *)
Lemma MPI_Gather_whole_blocks bufs count recvbuf :
  Forall (fun s => length s = count) bufs ->
  (length bufs * count <= length recvbuf)%nat ->
  MPI_Gather bufs count recvbuf
  = concat bufs ++ drop (length bufs * count) recvbuf.
Proof.
  intros Hbufs Hlen. unfold MPI_Gather.
  rewrite gather_from_spec; [|by eapply Forall_impl; [done|]; simpl; lia|done].
  simpl. do 2 f_equal. clear Hlen.
  induction Hbufs as [|s rest Hs _ IH]; [done|].
  rewrite fmap_cons, IH. f_equal. apply take_ge. lia.
Qed.

(** Cutting an array into [P] blocks of [count] elements and putting them
    back in order gives the array. *)
Lemma concat_blocks (P count : nat) sendbuf :
  length sendbuf = (P * count)%nat ->
  concat ((fun r => take count (drop (r * count) sendbuf)) <$> seq 0 P) = sendbuf.
Proof.
  revert sendbuf. induction P as [|P IH]; intros sendbuf Hlen.
  - by destruct sendbuf.
  - transitivity (take count sendbuf ++ drop count sendbuf); [|apply take_drop].
    rewrite <- (IH (drop count sendbuf)) by (rewrite length_drop; lia).
    simpl. f_equal. rewrite <- fmap_S_seq, <- list_fmap_compose.
    f_equal. apply list_fmap_ext. intros _ r _. simpl.
    rewrite drop_drop. f_equal.
Qed.

Lemma MPI_Scatter_lookup sendbuf count bufs r buf :
  bufs !! r = Some buf ->
  MPI_Scatter sendbuf count bufs !! r
  = Some (write_block 0 (take count (drop (r * count) sendbuf)) buf).
Proof. intros Hr. unfold MPI_Scatter. by rewrite list_lookup_imap, Hr. Qed.

Lemma MPI_Scatter_length sendbuf count bufs :
  length (MPI_Scatter sendbuf count bufs) = length bufs.
Proof. apply length_imap. Qed.

(** What each rank sends back after a scatter of whole blocks: its block
    of the root's array. *)
Lemma MPI_Scatter_blocks sendbuf count bufs :
  (length bufs * count <= length sendbuf)%nat ->
  Forall (fun buf => (count <= length buf)%nat) bufs ->
  take count <$> MPI_Scatter sendbuf count bufs
  = (fun r => take count (drop (r * count) sendbuf)) <$> seq 0 (length bufs).
Proof.
  intros Hlen Hbufs. apply list_eq. intros r.
  rewrite !list_lookup_fmap.
  destruct (bufs !! r) as [buf|] eqn:Hr.
  - pose proof (lookup_lt_Some _ _ _ Hr) as Hlt.
    rewrite (MPI_Scatter_lookup _ _ _ _ buf Hr), lookup_seq_lt by done. simpl.
    assert (Hblk : length (take count (drop (r * count) sendbuf)) = count).
    { rewrite length_take, length_drop. nia. }
    rewrite write_block_prefix.
    + by rewrite take_app_length' by done.
    + rewrite Hblk. rewrite Forall_lookup in Hbufs. apply (Hbufs r buf Hr).
  - apply lookup_ge_None_1 in Hr.
    rewrite lookup_ge_None_2 by (rewrite MPI_Scatter_length; lia).
    by rewrite lookup_seq_ge by lia.
Qed.

Lemma MPI_Scatter_Gather (P : nat) sendbuf bufs recvbuf :
  length bufs = P ->
  (1 <= P)%nat -> (length sendbuf `mod` P = 0)%nat ->
  Forall (fun buf => (length sendbuf `div` P <= length buf)%nat) bufs ->
  length recvbuf = length sendbuf ->
  MPI_Gather (MPI_Scatter sendbuf (length sendbuf `div` P) bufs)
             (length sendbuf `div` P) recvbuf = sendbuf.
Proof.
  intros HP HP1 Hmod Hbufs Hrecv.
  assert (Hexact : length sendbuf = (P * (length sendbuf `div` P))%nat)
    by (apply Nat.Div0.div_exact; lia).
  set (count := (length sendbuf `div` P)%nat) in *.
  unfold MPI_Gather. rewrite gather_from_spec.
  - rewrite MPI_Scatter_length, HP. simpl.
    rewrite drop_ge by lia.
    rewrite MPI_Scatter_blocks by (done || lia).
    rewrite HP, concat_blocks by done. apply app_nil_r.
  - apply Forall_forall. intros blk [r Hblk]%list_elem_of_lookup_1.
    pose proof (lookup_lt_Some _ _ _ Hblk) as Hlt.
    rewrite MPI_Scatter_length in Hlt.
    destruct (lookup_lt_is_Some_2 bufs r Hlt) as [buf Hbuf].
    rewrite (MPI_Scatter_lookup _ _ _ _ buf Hbuf) in Hblk.
    injection Hblk as <-. rewrite write_block_length.
    rewrite Forall_lookup in Hbufs. apply (Hbufs r buf Hbuf).
  - rewrite MPI_Scatter_length. lia.
Qed.
End ScatterGather.

(** C5: for every root-held array of N elements with N divisible by P,
    scattering it in contiguous per-rank blocks and gathering each rank's
    received block unchanged rebuilds the original array at the root, element
    for element, with rank r's block at position r * (N / P). *)
Theorem scatter_then_gather_identity {A} (P : nat) (sendbuf : list A)
    (bufs : list (list A)) (recvbuf : list A) :
  (1 <= P)%nat -> (length sendbuf `mod` P = 0)%nat ->
  length bufs = P ->
  Forall (fun buf => length buf = (length sendbuf `div` P)%nat) bufs ->
  length recvbuf = length sendbuf ->
  MPI_Gather (MPI_Scatter sendbuf (length sendbuf `div` P) bufs)
             (length sendbuf `div` P) recvbuf = sendbuf /\
  forall r block,
    MPI_Scatter sendbuf (length sendbuf `div` P) bufs !! r = Some block ->
    take (length sendbuf `div` P)
         (drop (r * (length sendbuf `div` P))
               (MPI_Gather (MPI_Scatter sendbuf (length sendbuf `div` P) bufs)
                           (length sendbuf `div` P) recvbuf)) = block.
Proof.
  intros HP1 Hmod HP Hbufs Hrecv.
  assert (Hback : MPI_Gather (MPI_Scatter sendbuf (length sendbuf `div` P) bufs)
                    (length sendbuf `div` P) recvbuf = sendbuf).
  { apply MPI_Scatter_Gather; try done.
    eapply Forall_impl; [apply Hbufs|]. simpl. intros buf ->. done. }
  split; [done|]. intros r block Hblock. rewrite Hback.
  assert (Hexact : length sendbuf = (P * (length sendbuf `div` P))%nat)
    by (apply Nat.Div0.div_exact; lia).
  pose proof (lookup_lt_Some _ _ _ Hblock) as Hlt.
  rewrite MPI_Scatter_length in Hlt.
  destruct (lookup_lt_is_Some_2 bufs r Hlt) as [buf Hbuf].
  rewrite (MPI_Scatter_lookup _ _ _ _ buf Hbuf) in Hblock.
  injection Hblock as <-. symmetry. apply write_block_all.
  rewrite Forall_lookup in Hbufs. rewrite (Hbufs r buf Hbuf).
  rewrite length_take, length_drop. nia.
Qed.

Lemma scatter_then_gather_identity_witness :
  MPI_Gather (MPI_Scatter [1; 2; 3; 4; 5; 6] (6 `div` 3) [[0; 0]; [7; 7]; [8; 8]])
             (6 `div` 3) [9; 9; 9; 9; 9; 9] = [1; 2; 3; 4; 5; 6] /\
  forall r block,
    MPI_Scatter [1; 2; 3; 4; 5; 6] (6 `div` 3) [[0; 0]; [7; 7]; [8; 8]] !! r
      = Some block ->
    take (6 `div` 3)
         (drop (r * (6 `div` 3))
               (MPI_Gather
                  (MPI_Scatter [1; 2; 3; 4; 5; 6] (6 `div` 3) [[0; 0]; [7; 7]; [8; 8]])
                  (6 `div` 3) [9; 9; 9; 9; 9; 9])) = block.
Proof.
  apply (scatter_then_gather_identity 3 [1; 2; 3; 4; 5; 6]
           [[0; 0]; [7; 7]; [8; 8]] [9; 9; 9; 9; 9; 9]).
  - lia.
  - reflexivity.
  - reflexivity.
  - repeat constructor.
  - reflexivity.
Defined.

(** ** The local compute kernel *)

Section Kernel.
Context `{Arith D}.
Implicit Types (mat vec lres : list D).

Lemma row_loop_spec (todo j : nat) mat vec (i dim : nat) (s : D) :
  (i * dim + j + todo <= length mat)%nat ->
  (j + todo <= length vec)%nat ->
  row_loop todo j mat vec i dim s
  = Some (foldl (fun s j => d_add s (d_mul (nth (i * dim + j) mat d_zero)
                                           (nth j vec d_zero)))
                s (seq j todo)).
Proof.
  revert j s. induction todo as [|todo IH]; intros j s Hmat Hvec; [done|].
  simpl.
  destruct (nth_lookup_or_length mat (i * dim + j) d_zero) as [->|]; [|lia].
  destruct (nth_lookup_or_length vec j d_zero) as [->|]; [|lia].
  simpl. apply IH; lia.
Qed.

Lemma row_loop_dot mat vec (i dim : nat) :
  ((i + 1) * dim <= length mat)%nat -> (dim <= length vec)%nat ->
  row_loop dim 0 mat vec i dim d_zero = Some (dot dim mat vec i).
Proof. intros Hmat Hvec. rewrite row_loop_spec by lia. done. Qed.

(** The rows [i .. i + todo - 1] of [lres] receive their dot products; the
    other cells keep what they held. *)
Lemma rows_loop_spec (todo i : nat) mat vec (dim : nat) lres :
  ((i + todo) * dim <= length mat)%nat -> (dim <= length vec)%nat ->
  (i + todo <= length lres)%nat ->
  exists out, rows_loop todo i mat vec dim lres = Some out /\
    length out = length lres /\
    (forall k, (i <= k < i + todo)%nat -> out !! k = Some (dot dim mat vec k)) /\
    (forall k, (k < i \/ i + todo <= k)%nat -> out !! k = lres !! k).
Proof.
  revert i lres. induction todo as [|todo IH]; intros i lres Hmat Hvec Hlres.
  - exists lres. repeat split; intros; (done || lia).
  - simpl. rewrite row_loop_dot by nia. simpl.
    destruct (IH (S i) (<[i:=dot dim mat vec i]> lres)) as (out & Hout & Hlen & Hin & Hkeep).
    { lia. } { done. } { rewrite length_insert. lia. }
    exists out. split; [done|]. rewrite length_insert in Hlen.
    split; [done|]. split.
    + intros k Hk. destruct (decide (k = i)) as [->|Hne].
      * rewrite Hkeep by lia. apply list_lookup_insert_eq. lia.
      * apply Hin. lia.
    + intros k Hk. rewrite Hkeep by lia.
      apply list_lookup_insert_ne. lia.
Qed.

Lemma local_multiply_spec mat vec (to dim : nat) lres :
  (to * dim <= length mat)%nat -> (dim <= length vec)%nat ->
  length lres = to ->
  exists out, local_multiply mat vec to dim lres = Some out /\
    out = dot dim mat vec <$> seq 0 to.
Proof.
  intros Hmat Hvec Hlres. unfold local_multiply.
  destruct (rows_loop_spec to 0 mat vec dim lres) as (out & Hout & Hlen & Hin & _);
    [lia..|].
  exists out. split; [done|]. apply list_eq. intros k.
  rewrite list_lookup_fmap.
  destruct (decide (k < to)%nat) as [Hk|Hk].
  - rewrite Hin by lia. by rewrite lookup_seq_lt.
  - rewrite lookup_ge_None_2 by lia. by rewrite lookup_seq_ge by lia.
Qed.
End Kernel.


(** ** The result sink *)

Lemma string_app_cons (c : Ascii.ascii) (s t : string) :
  String c s +:+ t = String c (s +:+ t).
Proof. reflexivity. Qed.

Lemma string_app_assoc (s1 s2 s3 : string) :
  (s1 +:+ s2) +:+ s3 = s1 +:+ (s2 +:+ s3).
Proof.
  induction s1 as [|c s1 IH]; [done|]. by rewrite !string_app_cons, IH.
Qed.

Lemma string_app_nil_r (s : string) : s +:+ "" = s.
Proof. induction s as [|c s IH]; [done|]. by rewrite string_app_cons, IH. Qed.

Section ResultSink.
Context {D : Type} (fmt : D -> string).
Implicit Types (res : list D) (f : string).

(** The loop appends every element it visits, each followed by a space. *)
Lemma logRes_loop_spec (todo i : nat) res f :
  (i + todo <= length res)%nat ->
  logRes_loop fmt todo i res f
  = Some (f +:+ foldr (fun x s => fmt x +:+ " " +:+ s) "" (take todo (drop i res))).
Proof.
  revert i f. induction todo as [|todo IH]; intros i f Hlen.
  - simpl. by rewrite string_app_nil_r.
  - simpl. destruct (lookup_lt_is_Some_2 res i) as [x Hx]; [lia|].
    rewrite Hx. simpl. rewrite IH by lia.
    rewrite (drop_S res x i Hx). simpl.
    by rewrite !string_app_assoc.
Qed.

Lemma logRes_total res (n : nat) :
  (n <= length res)%nat -> is_Some (logRes fmt res n).
Proof. intros Hn. unfold logRes. by rewrite logRes_loop_spec. Qed.

(** The specification's line, and the space the loop writes after the last
    element. *)
Lemma trailing_space res :
  foldr (fun x s => fmt x +:+ " " +:+ s) "" res
  = match res with [] => "" | _ => spec_line fmt res +:+ " " end.
Proof.
  induction res as [|x [|y rest] IH]; [done|done|].
  change (foldr _ _ (x :: y :: rest))
    with (fmt x +:+ " " +:+ foldr (fun x s => fmt x +:+ " " +:+ s) "" (y :: rest)).
  rewrite IH.
  change (spec_line fmt (x :: y :: rest))
    with (fmt x +:+ " " +:+ spec_line fmt (y :: rest)).
  by rewrite !string_app_assoc.
Qed.
End ResultSink.

(** C9, as the code has it: for every coordinator-held result array of n
    elements, [logRes] writes the n elements in order, each converted by
    [%lf] and each followed by a single space, so the file is the line of the
    specification plus one space after the last element (an empty file for
    n = 0), and nothing else. *)
Theorem logRes_writes_line_with_trailing_space {D} (fmt : D -> string)
    (res : list D) :
  logRes fmt res (length res)
  = Some (match res with [] => "" | _ => spec_line fmt res +:+ " " end).
Proof.
  unfold logRes. rewrite logRes_loop_spec by done.
  rewrite drop_0, firstn_all. by rewrite trailing_space.
Qed.

(** C9 as stated fails: the file is not the elements separated by single
    spaces and nothing else; a space follows the last element. *)
Lemma logRes_is_not_spec_line :
  logRes printf_lf [1; 2] 2 = Some "1.000000 2.000000 " /\
  spec_line printf_lf [1; 2] = "1.000000 2.000000" /\
  logRes printf_lf [1; 2] 2 <> Some (spec_line printf_lf [1; 2]).
Proof. repeat split. intros Heq. vm_compute in Heq. discriminate Heq. Qed.

(** ** The run of MPI_Matrix_Vector *)

Lemma length_new_double {A} (junk : nat -> A) (n : nat) :
  length (new_double junk n) = n.
Proof. unfold new_double. by rewrite length_fmap, length_seq. Qed.

Lemma lookup_new_double {A} (junk : nat -> A) (n k : nat) :
  (k < n)%nat -> new_double junk n !! k = Some (junk k).
Proof.
  intros Hk. unfold new_double. by rewrite list_lookup_fmap, lookup_seq_lt.
Qed.

Lemma mapM_head_replicate {A} (P : nat) (x : A) :
  mapM head (replicate P [x]) = Some (replicate P x).
Proof. induction P as [|P IH]; [done|]. simpl. by rewrite IH. Qed.

Lemma agree_replicate (P : nat) (c : Z) :
  (1 <= P)%nat -> agree (replicate P c) = Some c.
Proof.
  destruct P as [|P]; [lia|]. intros _. simpl.
  assert (Hall : forallb (Z.eqb c) (replicate P c) = true).
  { induction P as [|P IH]; [done|]. simpl. by rewrite Z.eqb_refl. }
  by rewrite Hall.
Qed.

Section Loading.
Context `{Arith D}.

Lemma load_Some (file : list D) (cells : nat) (junk : nat -> D) :
  (length file <= cells)%nat ->
  load file cells junk
  = Some (file ++ drop (length file) (new_double junk cells)).
Proof.
  intros Hlen. unfold load. rewrite decide_True by done.
  by rewrite write_block_prefix by (by rewrite length_new_double).
Qed.

(** [loadVec(vfname, returnSize(vfname))] fills the whole vector. *)
Lemma loadVec_whole (file : list D) (junk : nat -> D) :
  loadVec file (length file) junk = Some file.
Proof.
  unfold loadVec. rewrite load_Some by done.
  by rewrite drop_ge, app_nil_r by (by rewrite length_new_double).
Qed.
End Loading.

Section MatrixVectorRun.
Context `{Arith D}.
Variables (P : nat) (vfile mfile : list D).
Variables (junk_dim : nat -> Z) (junk : nat -> Site -> nat -> D).
Variable fmt : D -> string.
Hypothesis P_pos : (1 <= P)%nat.
Hypothesis mfile_fits : (length mfile <= length vfile * length vfile)%nat.
Hypothesis dim_fits :
  Z.of_nat (length vfile) * Z.of_nat (length vfile) <= INT_MAX.

Local Abbreviation N := (length vfile).
Local Abbreviation msz := ((N * N) `div` P)%nat.
Local Abbreviation rows := (N `div` P)%nat.

(** The matrix rank 0 holds after [loadMat]. *)
Local Abbreviation tmat0 :=
  (mfile ++ drop (length mfile) (new_double (junk 0%nat at_tmat) (N * N))).

(** The rows of rank [r] after the kernel. *)
Local Abbreviation lres_of :=
  (fun r : nat => dot N (take msz (drop (r * msz) tmat0)) vfile <$> seq 0 rows).

Lemma msize_nat : Z.to_nat (msize (Z.of_nat N) (Z.of_nat P)) = msz.
Proof.
  rewrite msize_div by lia.
  rewrite <- Nat2Z.inj_mul, <- Nat2Z.inj_div. apply Nat2Z.id.
Qed.

Lemma to_nat : Z.to_nat (to (Z.of_nat N) (Z.of_nat P)) = rows.
Proof. rewrite to_div by lia. rewrite <- Nat2Z.inj_div. apply Nat2Z.id. Qed.

Lemma rows_fit_block : (rows * N <= msz)%nat.
Proof.
  apply Nat.div_le_lower_bound; [lia|].
  pose proof (Nat.Div0.mul_div_le N P). nia.
Qed.

Lemma blocks_fit_matrix : (P * msz <= N * N)%nat.
Proof. apply Nat.Div0.mul_div_le. Qed.

Lemma vecs_after_Bcast :
  MPI_Bcast N 0
    ((fun prank => if decide (prank = 0%nat) then vfile
                   else new_double (junk prank at_vec) N) <$> seq 0 P)
  = replicate P vfile.
Proof.
  rewrite (MPI_Bcast_replicate _ 0 N vfile).
  - by rewrite length_fmap, length_seq.
  - destruct P; [lia|done].
  - intros buf [prank [-> _]]%list_elem_of_fmap.
    case_decide; [done|apply length_new_double].
Qed.

Lemma mats_after_Scatter :
  MPI_Scatter tmat0 msz
    ((fun prank => new_double (junk prank at_mat) msz) <$> seq 0 P)
  = (fun r => take msz (drop (r * msz) tmat0)) <$> seq 0 P.
Proof.
  apply list_eq. intros r. rewrite list_lookup_fmap.
  destruct (decide (r < P)%nat) as [Hr|Hr].
  - rewrite (MPI_Scatter_lookup _ _ _ _ (new_double (junk r at_mat) msz))
      by (by rewrite list_lookup_fmap, lookup_seq_lt).
    rewrite lookup_seq_lt by done. simpl. f_equal.
    apply write_block_all. rewrite length_new_double.
    rewrite length_take, length_drop, length_app, length_drop, length_new_double.
    pose proof blocks_fit_matrix. nia.
  - rewrite lookup_ge_None_2
      by (rewrite MPI_Scatter_length, length_fmap, length_seq; lia).
    by rewrite lookup_seq_ge by lia.
Qed.

Lemma MatrixVector_main_run :
  exists f,
    logRes fmt (MPI_Gather (lres_of <$> seq 0 P) rows
                  (new_double (junk 0%nat at_res) N)) N = Some f /\
    main (Z.of_nat P) vfile mfile junk_dim junk fmt
    = Some {| issued := [Bcast; Bcast; Scatter; Gather];
              res := MPI_Gather (lres_of <$> seq 0 P) rows
                       (new_double (junk 0%nat at_res) N);
              Result_txt := f; exit_code := 0 |}.
Proof.
  destruct (logRes_total fmt
              (MPI_Gather (lres_of <$> seq 0 P) rows
                 (new_double (junk 0%nat at_res) N)) N) as [f Hf].
  { by rewrite MPI_Gather_length, length_new_double. }
  exists f. split; [done|].
  unfold main. rewrite Nat2Z.id.
  rewrite MPI_Bcast_from_rank0, mapM_head_replicate. simpl.
  rewrite agree_replicate by done. simpl.
  unfold returnSize. rewrite Nat2Z.id.
  rewrite loadVec_whole. simpl.
  unfold loadMat. rewrite option_guard_True by done. simpl.
  rewrite load_Some by done. simpl.
  rewrite option_guard_True by done.
  rewrite msize_nat, to_nat, vecs_after_Bcast, mats_after_Scatter.
  rewrite zip_with_replicate_r_eq by (by rewrite length_fmap, length_seq).
  rewrite <- list_fmap_compose, zip_with_fmap_r, zip_with_diag.
  rewrite (mapM_fmap_total _ _ lres_of). 
  - simpl. by rewrite Hf.
  - intros r Hr%elem_of_seq. simpl.
    destruct (local_multiply_spec (take msz (drop (r * msz) tmat0)) vfile rows N
                (new_double (junk r at_lres) rows)) as (out & -> & ->); [| | |done].
    + rewrite length_take, length_drop, length_app, length_drop, length_new_double.
      pose proof blocks_fit_matrix. pose proof rows_fit_block. nia.
    + done.
    + apply length_new_double.
Qed.
End MatrixVectorRun.

(** ** A group size that does not divide the dimension *)

(** C3, as the code has it: for every N and P >= 1 with N mod P <> 0, a
    matrix file of at most N * N numbers and N * N within [int], the program
    signals no error.  Every rank issues both broadcasts, the scatter and the
    gather, and [main] returns 0; the result has N entries, of which the last
    N - P * (N / P) >= 1 are never written and keep what the allocation
    held. *)
Theorem indivisible_partition_is_not_rejected `{Arith D} (csize : Z)
    (vfile mfile : list D) (junk_dim : nat -> Z)
    (junk : nat -> Site -> nat -> D) (fmt : D -> string) :
  1 <= csize ->
  Z.of_nat (length vfile) `mod` csize <> 0 ->
  (length mfile <= length vfile * length vfile)%nat ->
  Z.of_nat (length vfile) * Z.of_nat (length vfile) <= INT_MAX ->
  exists run,
    main csize vfile mfile junk_dim junk fmt = Some run /\
    exit_code run = 0 /\
    issued run = [Bcast; Bcast; Scatter; Gather] /\
    length (res run) = length vfile /\
    csize * to (Z.of_nat (length vfile)) csize < Z.of_nat (length vfile) /\
    forall k : nat,
      csize * to (Z.of_nat (length vfile)) csize <= Z.of_nat k < Z.of_nat (length vfile) ->
      res run !! k = Some (junk 0%nat at_res k).
Proof.
  intros Hcsize Hmod Hmfile Hdim.
  set (P := Z.to_nat csize).
  assert (HP : csize = Z.of_nat P) by (unfold P; lia).
  assert (HP1 : (1 <= P)%nat) by lia.
  destruct (MatrixVector_main_run P vfile mfile junk_dim junk fmt HP1 Hmfile Hdim)
    as (f & _ & Hrun).
  rewrite <- HP in Hrun. eexists. split; [exact Hrun|]. simpl.
  split; [done|]. split; [done|].
  rewrite MPI_Gather_length, length_new_double. split; [done|].
  rewrite to_div by lia.
  assert (Hlt : csize * (Z.of_nat (length vfile) / csize) < Z.of_nat (length vfile)).
  { pose proof (Z.div_mod (Z.of_nat (length vfile)) csize).
    pose proof (Z.mod_pos_bound (Z.of_nat (length vfile)) csize). lia. }
  split; [done|]. intros k Hk.
  assert (Hrows : csize * (Z.of_nat (length vfile) / csize)
                  = Z.of_nat (P * (length vfile `div` P))).
  { rewrite HP at 1 2. by rewrite Nat2Z.inj_mul, Nat2Z.inj_div. }
  rewrite MPI_Gather_whole_blocks.
  - rewrite lookup_app_r; rewrite (length_concat_blocks _ (length vfile `div` P)).
    + rewrite !length_fmap, !length_seq, lookup_drop, lookup_new_double by lia.
      do 2 f_equal. lia.
    + apply Forall_fmap, Forall_forall. intros r _. simpl.
      by rewrite length_fmap, length_seq.
    + rewrite !length_fmap, !length_seq. lia.
    + apply Forall_fmap, Forall_forall. intros r _. simpl.
      by rewrite length_fmap, length_seq.
  - apply Forall_fmap, Forall_forall. intros r _. simpl.
    by rewrite length_fmap, length_seq.
  - rewrite length_fmap, length_seq, length_new_double. lia.
Qed.

Lemma indivisible_partition_is_not_rejected_witness :
  exists run,
    main 3 (seqZ 1 10) (seqZ 0 100) (fun _ => 7) (fun _ _ _ => 99) printf_lf
      = Some run /\
    exit_code run = 0 /\
    issued run = [Bcast; Bcast; Scatter; Gather] /\
    length (res run) = length (seqZ 1 10) /\
    3 * to (Z.of_nat (length (seqZ 1 10))) 3 < Z.of_nat (length (seqZ 1 10)) /\
    forall k : nat,
      3 * to (Z.of_nat (length (seqZ 1 10))) 3 <= Z.of_nat k
        < Z.of_nat (length (seqZ 1 10)) ->
      res run !! k = Some ((fun _ _ _ => 99) 0%nat at_res k).
Proof.
  apply (indivisible_partition_is_not_rejected 3 (seqZ 1 10) (seqZ 0 100)
           (fun _ => 7) (fun _ _ _ => 99) printf_lf).
  - lia.
  - vm_compute. discriminate.
  - vm_compute. lia.
  - vm_compute. discriminate.
Defined.

(** C3 as stated fails on N = 10, P = 3: the run ends with status 0 after the
    scatter and the gather, rank 1 and rank 2 multiply blocks that do not
    start at a row, and [res[9]] is what the allocation held. *)
Lemma partition_10_by_3_is_not_rejected :
  10 `mod` 3 <> 0 /\
  exists run,
    main 3 (seqZ 1 10) (seqZ 0 100) (fun _ => 7) (fun _ _ _ => 99) printf_lf
      = Some run /\
    ~ (exit_code run <> 0 /\ (Scatter ∉ issued run) /\ (Gather ∉ issued run)) /\
    exit_code run = 0 /\
    issued run = [Bcast; Bcast; Scatter; Gather] /\
    res run = [330; 880; 1430; 2145; 2695; 3245; 3960; 4510; 5060; 99].
Proof.
  split; [done|]. eexists. split; [vm_compute; reflexivity|]. simpl.
  split; [|done]. intros [Hexit _]. by apply Hexit.
Qed.

(** ** The matrix-vector product *)

(** C4: for every local block of rowsPerRank rows (each of N elements,
    row-major) and every shared vector of length N, the local compute kernel
    produces rowsPerRank outputs, output i being the sum over j of
    block[i*N + j] * vector[j] accumulated in the order j = 0 .. N-1; and for
    N = 4, P = 2, the vector [1,2,3,4] and the 4x4 identity matrix the result
    gathered at the coordinator is [1,2,3,4]. *)
Theorem local_kernel_is_row_dot_products `{Arith D} (block vector lres : list D)
    (rowsPerRank N : nat) :
  length block = (rowsPerRank * N)%nat ->
  length vector = N ->
  length lres = rowsPerRank ->
  (exists out,
     local_multiply block vector rowsPerRank N lres = Some out /\
     length out = rowsPerRank /\
     forall i, (i < rowsPerRank)%nat ->
       out !! i
       = Some (foldl (fun s j => d_add s (d_mul (nth (i * N + j) block d_zero)
                                                (nth j vector d_zero)))
                     d_zero (seq 0 N))) /\
  (forall junk_dim junk fmt,
     res <$> main (D:=Z) 2 [1; 2; 3; 4]
               [1; 0; 0; 0;  0; 1; 0; 0;  0; 0; 1; 0;  0; 0; 0; 1]
               junk_dim junk fmt
     = Some [1; 2; 3; 4]).
Proof.
  intros Hblock Hvector Hlres. split.
  - destruct (local_multiply_spec block vector rowsPerRank N lres)
      as (out & Hout & ->); [lia..|].
    exists (dot N block vector <$> seq 0 rowsPerRank).
    split; [done|]. split; [by rewrite length_fmap, length_seq|].
    intros i Hi. by rewrite list_lookup_fmap, lookup_seq_lt.
  - intros junk_dim junk fmt. vm_compute. reflexivity.
Qed.

Lemma local_kernel_is_row_dot_products_witness :
  (exists out,
     local_multiply [1; 2; 3; 4; 5; 6] [10; 20; 30] 2 3 [0; 0] = Some out /\
     length out = 2%nat /\
     forall i, (i < 2)%nat ->
       out !! i
       = Some (foldl (fun s j => d_add s (d_mul (nth (i * 3 + j) [1; 2; 3; 4; 5; 6] d_zero)
                                                (nth j [10; 20; 30] d_zero)))
                     d_zero (seq 0 3))) /\
  (forall junk_dim junk fmt,
     res <$> main (D:=Z) 2 [1; 2; 3; 4]
               [1; 0; 0; 0;  0; 1; 0; 0;  0; 0; 1; 0;  0; 0; 0; 1]
               junk_dim junk fmt
     = Some [1; 2; 3; 4]).
Proof.
  apply (local_kernel_is_row_dot_products [1; 2; 3; 4; 5; 6] [10; 20; 30] [0; 0] 2 3).
  - reflexivity.
  - reflexivity.
  - reflexivity.
Defined.

(** The same kernel and the same run in binary64. *)
Example MatrixVector_scenario_binary64 :
  local_multiply [1; 2; 3; 4; 5; 6]%float [10; 20; 30]%float 2 3 [0; 0]%float
    = Some [140; 320]%float /\
  res <$> main 2 [1; 2; 3; 4]%float
            [1; 0; 0; 0;  0; 1; 0; 0;  0; 0; 1; 0;  0; 0; 0; 1]%float
            (fun _ => 7) (fun _ _ _ => 99%float) (fun _ => "")
    = Some [1; 2; 3; 4]%float.
Proof. split; reflexivity. Qed.

(** ** The whole run when the group size divides the dimension *)

Lemma foldl_ext_in {A B} (f g : A -> B -> A) (a : A) (l : list B) :
  (forall s x, x ∈ l -> f s x = g s x) -> foldl f a l = foldl g a l.
Proof.
  revert a. induction l as [|x l IH]; intros a Hfg; [done|].
  simpl. rewrite (Hfg a x) by apply list_elem_of_here.
  apply IH. intros s y Hy. by apply Hfg, list_elem_of_further.
Qed.

Section WholeRun.
Context `{Arith D}.

(** Row [i] of the block that starts [off] rows down is row [off + i] of
    the matrix. *)
Lemma dot_block (N rows off i : nat) (mat vec : list D) :
  (i < rows)%nat -> ((off + rows) * N <= length mat)%nat ->
  dot N (take (rows * N) (drop (off * N) mat)) vec i = dot N mat vec (off + i).
Proof.
  intros Hi Hlen. unfold dot. apply foldl_ext_in.
  intros s j Hj%elem_of_seq. do 2 f_equal.
  rewrite !nth_lookup. f_equal.
  rewrite lookup_take_lt by nia. rewrite lookup_drop. f_equal. lia.
Qed.

(** X1: when the group size divides the dimension, the matrix file holds
    N * N doubles and N * N fits an [int], a run of [main] issues the two
    broadcasts, the scatter and the gather, returns 0, and leaves in [res],
    for every k < N, the dot product of row k of the matrix with the vector,
    which [logRes] then writes. *)
Lemma MatrixVector_main_product (P : nat) (vfile mfile : list D)
    (junk_dim : nat -> Z) (junk : nat -> Site -> nat -> D) (fmt : D -> string) :
  (1 <= P)%nat -> (length vfile `mod` P = 0)%nat ->
  length mfile = (length vfile * length vfile)%nat ->
  Z.of_nat (length vfile) * Z.of_nat (length vfile) <= INT_MAX ->
  exists f,
    logRes fmt (dot (length vfile) mfile vfile <$> seq 0 (length vfile))
           (length vfile) = Some f /\
    main (Z.of_nat P) vfile mfile junk_dim junk fmt
    = Some {| issued := [Bcast; Bcast; Scatter; Gather];
              res := dot (length vfile) mfile vfile <$> seq 0 (length vfile);
              Result_txt := f; exit_code := 0 |}.
Proof.
  intros HP1 Hmod Hmfile Hdim.
  set (N := length vfile) in *. set (rows := (N `div` P)%nat).
  assert (HN : N = (P * rows)%nat) by (apply Nat.Div0.div_exact; lia).
  assert (Hmsz : ((N * N) `div` P = rows * N)%nat).
  { rewrite HN at 1. rewrite <- Nat.mul_assoc, Nat.mul_comm.
    rewrite Nat.div_mul by lia. done. }
  destruct (MatrixVector_main_run P vfile mfile junk_dim junk fmt HP1)
    as (f & Hf & Hrun); [fold N; lia|done|].
  fold N in Hf, Hrun. fold rows in Hf, Hrun. rewrite Hmsz in Hf, Hrun.
  rewrite drop_ge, app_nil_r in Hf, Hrun by (rewrite length_new_double; lia).
  assert (Hres :
    MPI_Gather
      ((fun r : nat =>
          dot N (take (rows * N) (drop (r * (rows * N)) mfile)) vfile
            <$> seq 0 rows) <$> seq 0 P)
      rows (new_double (junk 0%nat at_res) N)
    = dot N mfile vfile <$> seq 0 N).
  { rewrite MPI_Gather_whole_blocks.
    - rewrite drop_ge, app_nil_r
        by (rewrite length_fmap, length_seq, length_new_double; lia).
      rewrite <- (concat_blocks P rows (dot N mfile vfile <$> seq 0 N))
        by (by rewrite length_fmap, length_seq).
      f_equal. apply list_fmap_ext. intros r ? [-> Hr]%lookup_seq. simpl.
      rewrite <- fmap_drop, <- fmap_take, drop_seq, take_seq.
      replace (rows `min` (N - r * rows))%nat with rows by nia.
      replace (0 + r * rows)%nat with (r * rows + 0)%nat by lia.
      rewrite <- fmap_add_seq, <- list_fmap_compose.
      apply list_fmap_ext. intros i ? [-> Hi]%lookup_seq. simpl.
      replace (r * (rows * N))%nat with (r * rows * N)%nat by lia.
      apply dot_block; [lia|]. rewrite Hmfile. nia.
    - apply Forall_fmap, Forall_forall. intros r _. simpl.
      by rewrite length_fmap, length_seq.
    - rewrite length_fmap, length_seq, length_new_double. lia. }
  rewrite Hres in Hf, Hrun. by exists f.
Qed.
End WholeRun.

Lemma MatrixVector_main_product_witness :
  exists f,
    logRes printf_lf
      (dot 4 [1; 0; 0; 0;  0; 2; 0; 0;  0; 0; 3; 0;  0; 0; 0; 4] [1; 2; 3; 4]
         <$> seq 0 4) 4 = Some f /\
    main 2 [1; 2; 3; 4] [1; 0; 0; 0;  0; 2; 0; 0;  0; 0; 3; 0;  0; 0; 0; 4]
         (fun _ => 7) (fun _ _ _ => 99) printf_lf
    = Some {| issued := [Bcast; Bcast; Scatter; Gather];
              res := dot 4 [1; 0; 0; 0;  0; 2; 0; 0;  0; 0; 3; 0;  0; 0; 0; 4]
                       [1; 2; 3; 4] <$> seq 0 4;
              Result_txt := f; exit_code := 0 |}.
Proof.
  apply (MatrixVector_main_product 2 [1; 2; 3; 4]
           [1; 0; 0; 0;  0; 2; 0; 0;  0; 0; 3; 0;  0; 0; 0; 4]
           (fun _ => 7) (fun _ _ _ => 99) printf_lf).
  - lia.
  - reflexivity.
  - reflexivity.
  - vm_compute. discriminate.
Defined.

(** * Sums of doubles *)

(** ** The series of MPI_Parallel_Sum, in exact arithmetic *)

Lemma sumZ_seqZ_gauss (k : nat) :
  2 * sumZ (seqZ 0 (Z.of_nat k)) = Z.of_nat k * (Z.of_nat k - 1).
Proof.
  induction k as [|k IH]; [done|].
  rewrite seqZ_S, sumZ_app. unfold sumZ at 2. simpl foldr. lia.
Qed.

Lemma sequential_sum_gauss (n : Z) : 0 <= n -> sequential_sum n = n * (n + 1) / 2.
Proof.
  intros Hn. unfold sequential_sum. rewrite foldl_add_sumZ.
  pose proof (sumZ_seqZ_gauss (Z.to_nat (n + 1))) as Hsum.
  rewrite Z2Nat.id in Hsum by lia.
  apply Z.div_unique_exact; lia.
Qed.

Lemma half_product (k : nat) :
  Z.of_nat k * (Z.of_nat k - 1) / 2 = sumZ (seqZ 0 (Z.of_nat k)).
Proof.
  pose proof (sumZ_seqZ_gauss k). symmetry. apply Z.div_unique_exact; lia.
Qed.

(** The loop that leaves after [k] rounds has added the [k] terms
    [i, i + step, ...], and it needs one unit of fuel more than rounds. *)
Lemma while_loop_rounds (n step : Z) (k : nat) (i sum : Z) (fuel : nat) :
  1 <= step ->
  n < i + Z.of_nat k * step ->
  (k = 0%nat \/ i + (Z.of_nat k - 1) * step <= n) ->
  while_loop fuel i n step sum
  = if decide (fuel <= k)%nat then None
    else Some (sum + Z.of_nat k * i + step * (Z.of_nat k * (Z.of_nat k - 1) / 2)).
Proof.
  intros Hstep. rewrite half_product. revert i sum fuel.
  induction k as [|k IH]; intros i sum fuel Habove Hbelow.
  - destruct fuel as [|fuel]; [done|]. simpl.
    destruct (Z.leb_spec i n); [lia|]. f_equal. unfold sumZ. simpl. lia.
  - destruct fuel as [|fuel]; [done|]. simpl while_loop.
    destruct (Z.leb_spec i n); [|nia].
    rewrite IH; [|nia|destruct k; [by left|right; nia]].
    repeat case_decide; try lia; [done|]. f_equal.
    rewrite seqZ_S, sumZ_app.
    change (sumZ [0 + Z.of_nat k]) with (0 + Z.of_nat k + 0).
    rewrite Nat2Z.inj_succ. ring.
Qed.

(** In exact arithmetic rank r of P with r <= n executes the loop body
    m + 1 = (n - r) / P + 1 times (the loop needs m + 2 tests), and its
    partial sum is the arithmetic series (m + 1) r + P m (m + 1) / 2. *)
Lemma partial_sum_iterations (csize prank n : Z) (fuel : nat) :
  1 <= csize -> 0 <= prank <= n ->
  partial_sum fuel prank csize n
  = if decide (Z.of_nat fuel <= (n - prank) / csize + 1) then None
    else Some (((n - prank) / csize + 1) * prank
               + csize * (((n - prank) / csize + 1) * ((n - prank) / csize) / 2)).
Proof.
  intros Hcsize Hprank. unfold partial_sum. simpl.
  pose proof (Z.div_mod (n - prank) csize) as Hdm.
  pose proof (Z.mod_pos_bound (n - prank) csize) as Hmod.
  assert (Hm : 0 <= (n - prank) / csize) by (apply Z.div_pos; lia).
  set (m := (n - prank) / csize) in *.
  rewrite (while_loop_rounds n csize (S (Z.to_nat m))) by (lia || (right; lia)).
  replace (Z.of_nat (S (Z.to_nat m))) with (m + 1) by lia.
  replace (m + 1 - 1) with m by lia.
  rewrite Z.add_0_l. repeat case_decide; (done || lia).
Qed.

(** The partial sums every rank hands to the reduction, for any arithmetic. *)
Lemma ParallelSum_reduces_partial_sums `{Arith D} (csize : Z) (n : D)
    (junk : nat -> D) (fuel : nat) (sums : nat -> D) :
  (forall prank, (prank < Z.to_nat csize)%nat ->
     partial_sum fuel (Z.of_nat prank) csize n = Some (sums prank)) ->
  forall sched,
    ParallelSum.main csize n junk sched fuel
    = MPI_Reduce d_add (sums <$> seq 0 (Z.to_nat csize)) sched.
Proof.
  intros Hsums sched. unfold ParallelSum.main, getInput.
  rewrite MPI_Bcast_from_rank0.
  rewrite zip_with_replicate_r_eq by apply length_seq.
  rewrite (mapM_fmap_total _ _ sums); [done|].
  intros prank Hprank%elem_of_seq. simpl. apply Hsums. lia.
Qed.

(** ** A bound that is not a number *)

(** No double is [<=] NaN. *)
Lemma leb_nan (x : float) : PrimFloat.leb x nan = false.
Proof.
  rewrite FloatAxioms.leb_spec.
  change (FloatOps.Prim2SF nan) with SpecFloat.S754_nan.
  by destruct (FloatOps.Prim2SF x).
Qed.

Lemma MPI_Reduce_all_equal {D} (op : D -> D -> D) (z : D) (vals : list D)
    (t : Schedule) :
  op z z = z ->
  (forall v, v ∈ vals -> v = z) ->
  valid_schedule (length vals) t ->
  MPI_Reduce op vals t = Some z.
Proof.
  intros Hz Hvals Hvalid.
  assert (Hin : Forall (fun rank => (rank < length vals)%nat) (ranks_of t)).
  { apply Forall_forall. intros rank Hrank.
    rewrite Hvalid in Hrank. apply elem_of_seq in Hrank. lia. }
  clear Hvalid. induction t as [rank|l IHl r IHr]; simpl in *.
  - rewrite Forall_singleton in Hin.
    destruct (lookup_lt_is_Some_2 vals rank Hin) as [v Hv].
    rewrite Hv. f_equal. apply Hvals. by eapply list_elem_of_lookup_2.
  - apply Forall_app in Hin as [Hl Hr].
    rewrite IHl, IHr by done. simpl. by rewrite Hz.
Qed.

(** X6: in binary64, when the number read is NaN the test [i <= n] fails at
    once on every rank, and rank 0 prints the sum 0 on every group size; the
    program reports no error. *)
Theorem ParallelSum_main_nan (csize : Z) (junk : nat -> float)
    (sched : Schedule) (fuel : nat) :
  1 <= csize ->
  valid_schedule (Z.to_nat csize) sched ->
  (1 <= fuel)%nat ->
  ParallelSum.main csize nan junk sched fuel = Some 0%float.
Proof.
  intros Hcsize Hsched Hfuel.
  rewrite (ParallelSum_reduces_partial_sums csize nan junk fuel (fun _ => 0%float)).
  - apply MPI_Reduce_all_equal.
    + reflexivity.
    + by intros v [prank [-> _]]%list_elem_of_fmap.
    + by rewrite length_fmap, length_seq.
  - intros prank _. destruct fuel as [|fuel]; [lia|].
    apply while_loop_exit. apply leb_nan.
Qed.

Lemma ParallelSum_main_nan_witness :
  ParallelSum.main 4 nan (fun _ => 77%float) (rank_order 3) 1 = Some 0%float.
Proof.
  apply (ParallelSum_main_nan 4 (fun _ => 77%float) (rank_order 3) 1).
  - lia.
  - apply (rank_order_valid 3).
  - lia.
Defined.

(** ** Integers in binary64

    A double has a mantissa of 53 bits.  The integers of [0, 2^53] are
    doubles, and on them the conversion from [int], the addition and the
    comparison of binary64 are those of the integers, as long as the sum stays
    within 2^53. *)

Section Binary64.
Import SpecFloat.
Local Abbreviation prec := FloatOps.prec.
Local Abbreviation emax := FloatOps.emax.
Local Abbreviation of_int := (@d_of_int float binary64_Arith).

Lemma digits2_pos_size (p : positive) : digits2_pos p = Pos.size p.
Proof. induction p as [p IH|p IH|]; simpl; congruence. Qed.

Lemma Zpos_iter_xO (q k : positive) :
  Zpos (Pos.iter xO q k) = Zpos q * 2 ^ Zpos k.
Proof.
  induction k as [|k IH] using Pos.peano_ind.
  - simpl. lia.
  - rewrite Pos.iter_succ, Pos2Z.inj_succ, Z.pow_succ_r by lia.
    rewrite Pos2Z.inj_xO, IH. lia.
Qed.

Lemma size_bounds (p : positive) :
  2 ^ (Zpos (Pos.size p) - 1) <= Zpos p < 2 ^ Zpos (Pos.size p).
Proof.
  pose proof (Pos.size_gt p) as Hgt. pose proof (Pos.size_le p) as Hle.
  apply Pos2Z.pos_lt_pos in Hgt. apply Pos2Z.pos_le_pos in Hle.
  rewrite Pos2Z.inj_pow in Hgt, Hle. rewrite (Pos2Z.inj_xO p) in Hle.
  assert (Hpow : 2 ^ Zpos (Pos.size p) = 2 * 2 ^ (Zpos (Pos.size p) - 1)).
  { rewrite <- Z.pow_succ_r by lia. f_equal. lia. }
  lia.
Qed.

Lemma size_unique (p : positive) (d : Z) :
  2 ^ (d - 1) <= Zpos p < 2 ^ d -> Zpos (Pos.size p) = d.
Proof.
  intros Hp. pose proof (size_bounds p) as Hs.
  destruct (Z.lt_trichotomy (Zpos (Pos.size p)) d) as [Hlt|[Heq|Hgt]]; [|done|].
  - pose proof (Z.pow_le_mono_r 2 (Zpos (Pos.size p)) (d - 1)). lia.
  - destruct (Z.le_gt_cases 0 d) as [Hd|Hd].
    + pose proof (Z.pow_le_mono_r 2 d (Zpos (Pos.size p) - 1)). lia.
    + rewrite (Z.pow_neg_r 2 d) in Hp by lia. lia.
Qed.

Lemma iter_pos_iter {A} (f : A -> A) (n : positive) (x : A) :
  iter_pos f n x = Pos.iter f x n.
Proof.
  revert x. induction n as [n IH|n IH|]; intros x; simpl; [|by rewrite !IH|done].
  by rewrite !IH, !Pos.iter_swap.
Qed.

Lemma shr_exact (q k : positive) :
  iter_pos shr_1 k
    {| shr_m := Zpos (Pos.iter xO q k); shr_r := false; shr_s := false |}
  = {| shr_m := Zpos q; shr_r := false; shr_s := false |}.
Proof.
  rewrite iter_pos_iter. induction k as [|k IH] using Pos.peano_ind; [done|].
  rewrite (Pos.iter_succ k _ xO), (Pos.iter_succ_r k _ shr_1). exact IH.
Qed.

(** Rounding leaves a number with a 53-bit mantissa as it is. *)
Lemma binary_round_exact (M q : positive) (E e : Z) :
  Pos.size q = 53%positive ->
  emin prec emax <= e <= emax - prec ->
  Zpos M * 2 ^ (E - Z.min E e) = Zpos q * 2 ^ (e - Z.min E e) ->
  binary_round prec emax false M E = S754_finite false q e.
Proof.
  intros Hq He Hval.
  assert (Hst2 :
    (let '(mrs'', e'') :=
       shr {| shr_m := Z.pos q; shr_r := false; shr_s := false |} e
         (Z.max (Zdigits2 (Z.pos q) + e - prec) (emin prec emax) - e) in
     match shr_m mrs'' with
     | 0 => S754_zero false
     | Z.pos m =>
         if e'' <=? emax - prec then S754_finite false m e''
         else S754_infinity false
     | Z.neg _ => S754_nan
     end) = S754_finite false q e).
  { simpl Zdigits2. rewrite digits2_pos_size, Hq.
    replace (Z.max (53 + e - prec) (emin prec emax) - e) with 0
      by (unfold emin, FloatOps.prec, FloatOps.emax in *; lia).
    simpl. by rewrite (proj2 (Z.leb_le e (emax - prec))) by lia. }
  assert (Haux : binary_round_aux prec emax false (Zpos q) e loc_Exact
                 = S754_finite false q e).
  { unfold binary_round_aux, shr_fexp, fexp. simpl Zdigits2.
    rewrite digits2_pos_size, Hq.
    replace (Z.max (53 + e - prec) (emin prec emax) - e) with 0
      by (unfold emin, FloatOps.prec, FloatOps.emax in *; lia).
    simpl shr. simpl shr_m. simpl round_nearest_even. exact Hst2. }
  pose proof (size_bounds q) as Hqb. rewrite Hq in Hqb.
  unfold binary_round.
  destruct (Z.le_gt_cases E e) as [HEe|HEe].
  - rewrite Z.min_l, Z.sub_diag, Z.mul_1_r in Hval by done.
    assert (HM : Zpos (digits2_pos M) = 53 + (e - E)).
    { rewrite digits2_pos_size. apply size_unique. rewrite Hval.
      replace (53 + (e - E) - 1) with (52 + (e - E)) by lia.
      rewrite !Z.pow_add_r by lia. nia. }
    rewrite HM. unfold fexp, shl_align.
    replace (Z.max (53 + (e - E) + E - prec) (emin prec emax)) with e
      by (unfold emin, FloatOps.prec, FloatOps.emax in *; lia).
    destruct (e - E) as [|k|k] eqn:Hk; [| |lia].
    + assert (M = q) by lia. subst M. replace E with e by lia. exact Haux.
    + assert (M = Pos.iter xO q k).
      { apply Pos2Z.inj. by rewrite Zpos_iter_xO. }
      subst M. unfold binary_round_aux, shr_fexp, fexp. 
      simpl Zdigits2. rewrite HM.
      replace (Z.max (53 + Z.pos k + E - prec) (emin prec emax) - E)
        with (Zpos k)
        by (unfold emin, FloatOps.prec, FloatOps.emax in *; lia).
      simpl shr. rewrite shr_exact. simpl shr_m. simpl round_nearest_even.
      replace (E + Z.pos k) with e by lia.
      exact Hst2.
  - rewrite Z.min_r, Z.sub_diag, Z.mul_1_r in Hval by lia.
    assert (Hj : E - e < 53).
    { destruct (Z.le_gt_cases 53 (E - e)) as [Hbig|]; [|done].
      pose proof (Z.pow_le_mono_r 2 53 (E - e)). nia. }
    assert (Hpow : 2 ^ 53 = 2 ^ (53 - (E - e)) * 2 ^ (E - e)).
    { rewrite <- Z.pow_add_r by lia. f_equal. lia. }
    assert (Hpow' : 2 ^ (53 - 1) = 2 ^ (53 - (E - e) - 1) * 2 ^ (E - e)).
    { rewrite <- Z.pow_add_r by lia. f_equal. lia. }
    assert (Hpos : 0 < 2 ^ (E - e)) by (apply Z.pow_pos_nonneg; lia).
    assert (HM : Zpos (digits2_pos M) = 53 - (E - e)).
    { rewrite digits2_pos_size. apply size_unique. nia. }
    rewrite HM. unfold fexp, shl_align.
    replace (Z.max (53 - (E - e) + E - prec) (emin prec emax)) with e
      by (unfold emin, FloatOps.prec, FloatOps.emax in *; lia).
    destruct (e - E) as [|k|k] eqn:Hk; [lia|lia|].
    assert (Pos.iter xO M k = q) as ->.
    { apply Pos2Z.inj. rewrite Zpos_iter_xO, <- Hval. do 2 f_equal. lia. }
    exact Haux.
Qed.

(** The same, with the two numbers measured in units of 2^-52. *)
Lemma binary_round_value (M q : positive) (E e z : Z) :
  Pos.size q = 53%positive -> -52 <= e <= 1 -> -52 <= E ->
  Zpos M * 2 ^ (E + 52) = z * 2 ^ 52 ->
  Zpos q * 2 ^ (e + 52) = z * 2 ^ 52 ->
  binary_round prec emax false M E = S754_finite false q e.
Proof.
  intros Hq He HE HM Hz. apply binary_round_exact; [done| |].
  - unfold emin, FloatOps.prec, FloatOps.emax. lia.
  - set (c := Z.min E e).
    assert (Hc : 0 < 2 ^ (c + 52)) by (apply Z.pow_pos_nonneg; lia).
    apply (Z.mul_reg_r _ _ (2 ^ (c + 52))); [lia|].
    rewrite <- !Z.mul_assoc, <- !Z.pow_add_r by lia.
    replace (E - c + (c + 52)) with (E + 52) by lia.
    replace (e - c + (c + 52)) with (e + 52) by lia. congruence.
Qed.

(** A positive integer up to 2^53 is a double: it has a 53-bit mantissa. *)
Lemma integer_mantissa (z : Z) :
  0 < z <= 2 ^ 53 ->
  exists q e, Pos.size q = 53%positive /\ -52 <= e <= 1 /\
              Zpos q * 2 ^ (e + 52) = z * 2 ^ 52.
Proof.
  intros Hz. destruct z as [|s|s]; [lia| |lia].
  pose proof (size_bounds s) as Hs.
  destruct (Z.le_gt_cases (Zpos (Pos.size s)) 53) as [Hd|Hd].
  - destruct (53 - Zpos (Pos.size s)) as [|k|k] eqn:Hk; [| |lia].
    + exists s, 0. split; [lia|]. split; [lia|]. done.
    + exists (Pos.iter xO s k), (- Zpos k).
      assert (Hpow : 2 ^ 52 = 2 ^ Zpos k * 2 ^ (- Zpos k + 52)).
      { rewrite <- Z.pow_add_r by lia. f_equal. lia. }
      split; [|split; [lia|]].
      * apply Pos2Z.inj, size_unique. rewrite Zpos_iter_xO.
        assert (Hp1 : 2 ^ (53 - 1) = 2 ^ (Zpos (Pos.size s) - 1) * 2 ^ Zpos k).
        { rewrite <- Z.pow_add_r by lia. f_equal. lia. }
        assert (Hp2 : 2 ^ 53 = 2 ^ Zpos (Pos.size s) * 2 ^ Zpos k).
        { rewrite <- Z.pow_add_r by lia. f_equal. lia. }
        assert (0 < 2 ^ Zpos k) by (apply Z.pow_pos_nonneg; lia). nia.
      * rewrite Zpos_iter_xO, Hpow. lia.
  - assert (Hbig : 2 ^ 53 <= Zpos s).
    { pose proof (Z.pow_le_mono_r 2 53 (Zpos (Pos.size s) - 1)). lia. }
    exists 4503599627370496%positive, 1. split; [done|]. split; [lia|].
    replace (Zpos s) with (2 ^ 53) by lia. reflexivity.
Qed.

Lemma binary_normalize_integer (z : Z) (q : positive) (e : Z) :
  0 < z -> Pos.size q = 53%positive -> -52 <= e <= 1 ->
  Zpos q * 2 ^ (e + 52) = z * 2 ^ 52 ->
  binary_normalize prec emax z 0 false = S754_finite false q e.
Proof.
  intros Hz Hq He Hval. destruct z as [|s|s]; [lia| |lia].
  simpl. by apply (binary_round_value s q 0 e (Zpos s)).
Qed.

Lemma shl_align_value (q : positive) (e ez : Z) :
  -52 <= ez <= e ->
  Zpos (fst (shl_align q e ez)) * 2 ^ (ez + 52) = Zpos q * 2 ^ (e + 52).
Proof.
  intros He. unfold shl_align.
  destruct (ez - e) as [|k|k] eqn:Hk; simpl.
  - by replace ez with e by lia.
  - lia.
  - rewrite Zpos_iter_xO, <- Z.mul_assoc, <- Z.pow_add_r by lia.
    do 2 f_equal. lia.
Qed.

(** Integers add without rounding while the sum is at most 2^53. *)
Lemma SFadd_integers (a b : Z) :
  0 <= a -> 0 <= b -> a + b <= 2 ^ 53 ->
  SFadd prec emax (binary_normalize prec emax a 0 false)
                  (binary_normalize prec emax b 0 false)
  = binary_normalize prec emax (a + b) 0 false.
Proof.
  intros Ha Hb Hab.
  destruct (decide (a = 0)) as [->|Ha0].
  { rewrite Z.add_0_l. destruct (decide (b = 0)) as [->|Hb0]; [done|].
    destruct (integer_mantissa b) as (q & e & Hq & He & Hval); [lia|].
    by rewrite (binary_normalize_integer b q e) by (done || lia). }
  destruct (integer_mantissa a) as (qa & ea & Hqa & Hea & Hvala); [lia|].
  rewrite (binary_normalize_integer a qa ea) by (done || lia).
  destruct (decide (b = 0)) as [->|Hb0].
  { rewrite Z.add_0_r.
    by rewrite (binary_normalize_integer a qa ea) by (done || lia). }
  destruct (integer_mantissa b) as (qb & eb & Hqb & Heb & Hvalb); [lia|].
  rewrite (binary_normalize_integer b qb eb) by (done || lia).
  destruct (integer_mantissa (a + b)) as (q & e & Hq & He & Hval); [lia|].
  rewrite (binary_normalize_integer (a + b) q e) by (done || lia).
  unfold SFadd. cbv zeta. unfold cond_Zopp.
  pose proof (shl_align_value qa ea (Z.min ea eb)) as Hsa.
  pose proof (shl_align_value qb eb (Z.min ea eb)) as Hsb.
  change (Zpos (fst (shl_align qa ea (Z.min ea eb)))
          + Zpos (fst (shl_align qb eb (Z.min ea eb))))
    with (Zpos (fst (shl_align qa ea (Z.min ea eb))
                + fst (shl_align qb eb (Z.min ea eb)))).
  simpl binary_normalize.
  apply (binary_round_value _ q _ e (a + b)); [done|done|lia| |done].
  rewrite Pos2Z.inj_add. lia.
Qed.

(** Integers compare as doubles the way they compare as integers. *)
Lemma SFleb_integers (a b : Z) :
  0 <= a <= 2 ^ 53 -> 0 <= b <= 2 ^ 53 ->
  SFleb (binary_normalize prec emax a 0 false)
        (binary_normalize prec emax b 0 false) = (a <=? b).
Proof.
  intros Ha Hb.
  destruct (decide (a = 0)) as [->|Ha0].
  { destruct (decide (b = 0)) as [->|Hb0]; [done|].
    destruct (integer_mantissa b) as (q & e & Hq & He & Hval); [lia|].
    rewrite (binary_normalize_integer b q e) by (done || lia).
    simpl. symmetry. apply Z.leb_le. lia. }
  destruct (integer_mantissa a) as (qa & ea & Hqa & Hea & Hvala); [lia|].
  rewrite (binary_normalize_integer a qa ea) by (done || lia).
  destruct (decide (b = 0)) as [->|Hb0].
  { simpl. symmetry. apply Z.leb_gt. lia. }
  destruct (integer_mantissa b) as (qb & eb & Hqb & Heb & Hvalb); [lia|].
  rewrite (binary_normalize_integer b qb eb) by (done || lia).
  pose proof (size_bounds qa) as Hsa. rewrite Hqa in Hsa.
  pose proof (size_bounds qb) as Hsb. rewrite Hqb in Hsb.
  unfold SFleb, SFcompare.
  destruct (Z.compare_spec ea eb) as [->|Hlt|Hgt].
  - fold (Pos.compare qa qb).
    assert (Hpos : 0 < 2 ^ (eb + 52)) by (apply Z.pow_pos_nonneg; lia).
    destruct (Pos.compare_spec qa qb) as [->|Hq|Hq]; symmetry.
    + apply Z.leb_le. lia.
    + apply Z.leb_le. nia.
    + apply Z.leb_gt. nia.
  - symmetry. apply Z.leb_le.
    assert (Hpos : 0 < 2 ^ (ea + 52)) by (apply Z.pow_pos_nonneg; lia).
    pose proof (Z.pow_le_mono_r 2 (ea + 53) (eb + 52)) as Hmono.
    replace (2 ^ (ea + 53)) with (2 * 2 ^ (ea + 52)) in Hmono
      by (rewrite <- Z.pow_succ_r by lia; f_equal; lia).
    change (2 ^ (53 - 1)) with 4503599627370496 in *.
    change (2 ^ 53) with 9007199254740992 in *.
    change (2 ^ 52) with 4503599627370496 in *. nia.
  - symmetry. apply Z.leb_gt.
    assert (Hpos : 0 < 2 ^ (eb + 52)) by (apply Z.pow_pos_nonneg; lia).
    pose proof (Z.pow_le_mono_r 2 (eb + 53) (ea + 52)) as Hmono.
    replace (2 ^ (eb + 53)) with (2 * 2 ^ (eb + 52)) in Hmono
      by (rewrite <- Z.pow_succ_r by lia; f_equal; lia).
    change (2 ^ (53 - 1)) with 4503599627370496 in *.
    change (2 ^ 53) with 9007199254740992 in *.
    change (2 ^ 52) with 4503599627370496 in *. nia.
Qed.

Lemma Prim2SF_of_int (z : Z) :
  0 <= z <= 2 ^ 53 ->
  FloatOps.Prim2SF (of_int z) = binary_normalize prec emax z 0 false.
Proof.
  intros Hz. cbn [d_of_int binary64_Arith].
  rewrite (proj2 (Z.ltb_ge z 0)) by lia.
  rewrite FloatAxioms.of_uint63_spec, Uint63.of_Z_spec.
  rewrite Z.mod_small; [done|].
  change (2 ^ 53) with 9007199254740992 in Hz.
  change wB with 9223372036854775808. lia.
Qed.

Lemma of_int_add (a b : Z) :
  0 <= a -> 0 <= b -> a + b <= 2 ^ 53 ->
  (of_int a + of_int b)%float = of_int (a + b).
Proof.
  intros Ha Hb Hab. apply FloatAxioms.Prim2SF_inj.
  rewrite FloatAxioms.add_spec, !Prim2SF_of_int by lia.
  by apply SFadd_integers.
Qed.

Lemma of_int_leb (a b : Z) :
  0 <= a <= 2 ^ 53 -> 0 <= b <= 2 ^ 53 ->
  PrimFloat.leb (of_int a) (of_int b) = (a <=? b).
Proof.
  intros Ha Hb. rewrite FloatAxioms.leb_spec, !Prim2SF_of_int by lia.
  by apply SFleb_integers.
Qed.

Lemma SFleb_trans (x y z : spec_float) :
  SFleb x y = true -> SFleb y z = true -> SFleb x z = true.
Proof.
  unfold SFleb, SFcompare.
  destruct x as [[]|[]| |[] mx ex], y as [[]|[]| |[] my ey],
           z as [[]|[]| |[] mz ez]; try done.
  - destruct (Z.compare_spec ex ey), (Z.compare_spec ey ez),
      (Z.compare_spec ex ez); try done; try lia; subst.
    fold (Pos.compare mx my) (Pos.compare my mz) (Pos.compare mx mz).
    destruct (Pos.compare_spec mx my), (Pos.compare_spec my mz),
      (Pos.compare_spec mx mz); simpl; try done; lia.
  - destruct (Z.compare_spec ex ey), (Z.compare_spec ey ez),
      (Z.compare_spec ex ez); try done; try lia; subst.
    fold (Pos.compare mx my) (Pos.compare my mz) (Pos.compare mx mz).
    destruct (Pos.compare_spec mx my), (Pos.compare_spec my mz),
      (Pos.compare_spec mx mz); simpl; try done; lia.
Qed.

Lemma binary64_leb_trans (x y z : float) :
  PrimFloat.leb x y = true -> PrimFloat.leb y z = true ->
  PrimFloat.leb x z = true.
Proof. rewrite !FloatAxioms.leb_spec. apply SFleb_trans. Qed.

Lemma integer_value_of_int (z : Z) :
  0 <= z <= 2 ^ 53 -> integer_value (of_int z) = Some z.
Proof.
  intros Hz. unfold integer_value. rewrite Prim2SF_of_int by done.
  destruct (decide (z = 0)) as [->|Hz0]; [done|].
  destruct (integer_mantissa z) as (q & e & Hq & He & Hval); [lia|].
  rewrite (binary_normalize_integer z q e) by (done || lia).
  unfold cond_Zopp. case_decide as He0.
  - f_equal. rewrite Z.pow_add_r in Hval by lia.
    change (2 ^ 52) with 4503599627370496 in Hval. lia.
  - assert (Hq2 : Zpos q = z * 2 ^ (- e)).
    { assert (Hpow : 2 ^ 52 = 2 ^ (- e) * 2 ^ (e + 52)).
      { rewrite <- Z.pow_add_r by lia. f_equal. lia. }
      assert (0 < 2 ^ (e + 52)) by (apply Z.pow_pos_nonneg; lia).
      rewrite Hpow in Hval. nia. }
    assert (0 < 2 ^ (- e)) by (apply Z.pow_pos_nonneg; lia).
    rewrite Hq2, Z.mod_mul, Z.div_mul by lia. by rewrite decide_True.
Qed.
End Binary64.

(** Binary64 is exact up to 2^53. *)
Lemma binary64_exact : exact_up_to (D:=float) (2 ^ 53).
Proof.
  split.
  - reflexivity.
  - apply of_int_add.
  - apply of_int_leb.
  - apply binary64_leb_trans.
Qed.

(** ** Sums that do not round

    What follows holds for any arithmetic that is exact up to [B]: the loop
    of MPI_Parallel_Sum and the reduction compute as in the integers while
    every sum stays within [B]. *)

Lemma while_loop_nonneg (fuel : nat) (i n step sum v : Z) :
  0 <= i -> 0 <= step -> 0 <= sum ->
  while_loop fuel i n step sum = Some v -> 0 <= v.
Proof.
  revert i sum. induction fuel as [|fuel IH]; intros i sum Hi Hstep Hsum; [done|].
  simpl. destruct (i <=? n); [|intros [= <-]; done].
  apply IH; lia.
Qed.

Lemma Forall_submseteq {A} (P : A -> Prop) (l k : list A) :
  l ⊆+ k -> Forall P k -> Forall P l.
Proof.
  intros Hsub Hk. apply Forall_forall. intros x Hx.
  rewrite Forall_forall in Hk. apply Hk. by eapply elem_of_submseteq.
Qed.

(** Part of a list of non-negative numbers adds up to at most the whole. *)
Lemma sumZ_submseteq (l k : list Z) :
  l ⊆+ k -> Forall (fun v => 0 <= v) k -> 0 <= sumZ l <= sumZ k.
Proof.
  unfold sumZ.
  induction 1 as [|x l k _ IH|x y l|x l k _ IH|l l' k Hl IH1 Hk IH2];
    intros Hpos.
  - done.
  - apply Forall_cons in Hpos as [Hx Hpos]. specialize (IH Hpos). simpl. lia.
  - apply Forall_cons in Hpos as [Hx Hpos].
    apply Forall_cons in Hpos as [Hy Hpos].
    assert (0 <= foldr Z.add 0 l).
    { clear -Hpos. induction Hpos; simpl; lia. }
    simpl. lia.
  - apply Forall_cons in Hpos as [Hx Hpos]. specialize (IH Hpos). simpl. lia.
  - specialize (IH2 Hpos).
    specialize (IH1 (Forall_submseteq _ _ _ Hk Hpos)). lia.
Qed.

(** The contributions of distinct ranks add up to at most the total. *)
Lemma sumZ_ranks (vals : list Z) (ranks : list nat) :
  Forall (fun v => 0 <= v) vals -> NoDup ranks ->
  Forall (fun rank => (rank < length vals)%nat) ranks ->
  0 <= sumZ ((fun rank => nth rank vals 0) <$> ranks) <= sumZ vals.
Proof.
  intros Hpos Hnd Hin. apply sumZ_submseteq; [|done].
  assert (Hvals : vals = (fun rank => nth rank vals 0) <$> seq 0 (length vals)).
  { apply list_eq. intros k. rewrite list_lookup_fmap.
    destruct (decide (k < length vals)%nat) as [Hk|Hk].
    - rewrite lookup_seq_lt by done. simpl.
      by destruct (nth_lookup_or_length vals k 0) as [->|]; [|lia].
    - rewrite lookup_seq_ge by lia. by rewrite lookup_ge_None_2 by lia. }
  assert (Hsub : (fun rank => nth rank vals 0) <$> ranks
                 ⊆+ (fun rank => nth rank vals 0) <$> seq 0 (length vals)).
  { apply fmap_submseteq, NoDup_submseteq; [done|].
    intros rank Hrank. rewrite Forall_forall in Hin.
    apply elem_of_seq. specialize (Hin rank Hrank). lia. }
  by rewrite <- Hvals in Hsub.
Qed.

Section ExactSums.
Context `{Arith D} (B : Z).
Hypothesis exact : exact_up_to B.

(** A reduction of non-negative integers whose total is within [B] is the
    reduction in the integers, along any schedule that uses no rank twice. *)
Lemma MPI_Reduce_exact (vals : list Z) (t : Schedule) :
  Forall (fun v => 0 <= v) vals -> sumZ vals <= B ->
  NoDup (ranks_of t) ->
  Forall (fun rank => (rank < length vals)%nat) (ranks_of t) ->
  MPI_Reduce d_add (d_of_int <$> vals) t
  = d_of_int <$> MPI_Reduce Z.add vals t.
Proof.
  intros Hpos Htotal.
  induction t as [rank|l IHl r IHr]; intros Hnd Hin.
  - simpl. apply list_lookup_fmap.
  - pose proof (sumZ_ranks vals _ Hpos Hnd Hin) as Hboth.
    simpl in Hnd, Hin, Hboth.
    apply NoDup_app in Hnd as (Hndl & _ & Hndr).
    apply Forall_app in Hin as [Hinl Hinr].
    pose proof (sumZ_ranks vals _ Hpos Hndl Hinl) as Hl.
    pose proof (sumZ_ranks vals _ Hpos Hndr Hinr) as Hr.
    rewrite fmap_app, sumZ_app in Hboth.
    simpl. rewrite IHl, IHr by done.
    rewrite (MPI_Reduce_leaves Z.add Z.add_assoc vals l 0) by done.
    rewrite (MPI_Reduce_leaves Z.add Z.add_assoc vals r 0) by done.
    rewrite !in_rank_order_add.
    + simpl. f_equal. apply (exact_add B exact); lia.
    + intros Hnil%fmap_nil_inv. by apply ranks_of_nonempty in Hnil.
    + intros Hnil%fmap_nil_inv. by apply ranks_of_nonempty in Hnil.
Qed.

(** Adding non-negative integers to a running sum, one after the other. *)
Lemma foldl_add_exact (s0 : Z) (l : list Z) :
  0 <= s0 -> Forall (fun v => 0 <= v) l -> s0 + sumZ l <= B ->
  foldl (fun sum i => d_add sum (d_of_int i)) (d_of_int s0) l
  = d_of_int (s0 + sumZ l).
Proof.
  revert s0. induction l as [|x l IH]; intros s0 Hs0 Hpos Hsum.
  - simpl. f_equal. unfold sumZ. simpl. lia.
  - apply Forall_cons in Hpos as [Hx Hpos].
    assert (0 <= sumZ l) by (apply (sumZ_submseteq l l); done).
    change (sumZ (x :: l)) with (x + sumZ l) in *.
    simpl. rewrite (exact_add B exact) by lia.
    rewrite IH by (done || lia). f_equal. lia.
Qed.

Section Bound.
Variables (n : D) (m : Z).
Hypothesis m_range : 0 <= m < B.
Hypothesis m_below : d_leb (d_of_int m) n = true.
Hypothesis m_next : d_leb (d_of_int (m + 1)) n = false.

(** With [m <= n < m + 1] the test [i <= n] is the test [i <= m]. *)
Lemma leb_integer_part (a : Z) :
  0 <= a <= B -> d_leb (d_of_int a) n = (a <=? m).
Proof.
  intros Ha. destruct (Z.leb_spec a m) as [Hle|Hgt].
  - apply (leb_transitive B exact _ (d_of_int m)); [|done].
    rewrite (exact_leb B exact) by lia. by apply Z.leb_le.
  - destruct (d_leb (d_of_int a) n) eqn:Hleb; [|done].
    rewrite <- m_next. symmetry.
    apply (leb_transitive B exact _ (d_of_int a)); [|done].
    rewrite (exact_leb B exact) by lia. apply Z.leb_le. lia.
Qed.

(** The loop on doubles is the loop on integers while the sum of all the
    integers from [i] to [m], added to [s], stays within [B]. *)
Lemma while_loop_exact (fuel : nat) (i step s : Z) :
  1 <= step -> m + step <= B -> 0 <= i <= m + step -> 0 <= s <= B ->
  (i <= m -> 2 * s + (m + 1 - i) * (m + i) <= 2 * B) ->
  while_loop fuel (d_of_int i) n (d_of_int step) (d_of_int s)
  = d_of_int <$> while_loop (D:=Z) fuel i m step s.
Proof.
  intros Hstep Hmax. revert i s.
  induction fuel as [|fuel IH]; intros i s Hi Hs Hsum; [done|].
  cbn [while_loop]. rewrite leb_integer_part by lia.
  change (@d_leb Z _ i m) with (i <=? m).
  destruct (Z.leb_spec i m) as [Hle|Hgt]; [|done].
  specialize (Hsum Hle).
  rewrite !(exact_add B exact) by nia.
  change (@d_add Z _ i step) with (i + step).
  change (@d_add Z _ s i) with (s + i).
  apply IH; [lia|nia|]. intros Hle'. nia.
Qed.

Lemma partial_sum_exact (fuel : nat) (prank csize : Z) :
  1 <= csize -> m + csize <= B -> 0 <= prank <= m + csize ->
  m * (m + 1) <= 2 * B ->
  partial_sum fuel prank csize n
  = d_of_int <$> partial_sum (D:=Z) fuel prank csize m.
Proof.
  intros Hcsize Hmax Hprank Hsum. unfold partial_sum.
  rewrite (exact_zero B exact).
  change (@d_of_int Z _ prank) with prank.
  change (@d_of_int Z _ csize) with csize.
  change (@d_zero Z _) with 0.
  apply while_loop_exact; try lia. intros Hle. nia.
Qed.

(** The run of [main]: every schedule of the reduction delivers the
    sequential sum up to the integer part of the bound. *)
Lemma ParallelSum_main_exact (csize : Z) (junk : nat -> D) (sched : Schedule)
    (fuel : nat) :
  1 <= csize -> m + csize <= B -> m * (m + 1) <= 2 * B ->
  valid_schedule (Z.to_nat csize) sched ->
  m + 1 < Z.of_nat fuel ->
  ParallelSum.main csize n junk sched fuel
  = Some (d_of_int (sequential_sum m)).
Proof.
  intros Hcsize Hmax Hsum Hsched Hfuel.
  set (zsum := fun prank : nat =>
                 default 0 (while_loop (D:=Z) fuel (Z.of_nat prank) m csize 0)).
  assert (Hz : forall prank,
             partial_sum (D:=Z) fuel (Z.of_nat prank) csize m
             = Some (zsum prank)).
  { intros prank. unfold partial_sum, zsum. simpl.
    by destruct (while_loop_total m csize Hcsize fuel (Z.of_nat prank) 0)
      as [v ->]; [lia|lia|]. }
  pose proof (ParallelSum_main_total csize m (fun _ => 0) sched fuel
                Hcsize Hsched Hfuel ltac:(lia)) as Hexact.
  rewrite (ParallelSum_reduces_partial_sums csize m (fun _ => 0) fuel zsum)
    in Hexact by (intros; apply Hz).
  change (@d_add Z _) with Z.add in Hexact.
  assert (Htotal : sumZ (zsum <$> seq 0 (Z.to_nat csize)) = sequential_sum m).
  { rewrite (MPI_Reduce_any_schedule Z.add Z.add_assoc Z.add_comm) in Hexact
      by (by rewrite length_fmap, length_seq).
    rewrite in_rank_order_add in Hexact; [congruence|].
    intros Hnil%(f_equal length).
    rewrite length_fmap, length_seq in Hnil. simpl in Hnil. lia. }
  rewrite (ParallelSum_reduces_partial_sums csize n junk fuel
             (d_of_int ∘ zsum)).
  - rewrite list_fmap_compose, MPI_Reduce_exact, Hexact; [done| | | |].
    + apply Forall_fmap, Forall_forall. intros prank _. simpl.
      unfold zsum.
      destruct (while_loop (D:=Z) fuel (Z.of_nat prank) m csize 0)
        as [v|] eqn:Hv; [|done].
      simpl. by apply (while_loop_nonneg fuel (Z.of_nat prank) m csize 0 v);
        [lia|lia|lia|].
    + rewrite Htotal, sequential_sum_gauss by lia.
      apply Z.div_le_upper_bound; lia.
    + unfold valid_schedule in Hsched. rewrite Hsched. apply NoDup_seq.
    + apply Forall_forall. intros rank Hrank.
      unfold valid_schedule in Hsched. rewrite Hsched in Hrank.
      apply elem_of_seq in Hrank. rewrite length_fmap, length_seq. lia.
  - intros prank Hprank. rewrite partial_sum_exact by lia.
    by rewrite Hz.
Qed.
End Bound.

(** An integer bound is its own integer part. *)
Lemma integer_bound (m : Z) :
  0 <= m < B ->
  d_leb (d_of_int m) (d_of_int m) = true /\
  d_leb (d_of_int (m + 1)) (d_of_int m) = false.
Proof.
  intros Hm. rewrite !(exact_leb B exact) by lia. split.
  - by apply Z.leb_le.
  - apply Z.leb_gt. lia.
Qed.
End ExactSums.

(** ** MPI_Parallel_Sum in binary64 *)

Lemma small_bound (m : Z) :
  0 <= m -> m * (m + 1) / 2 <= 2 ^ 53 ->
  m * (m + 1) <= 2 * 2 ^ 53 /\ m < 2 ^ 28.
Proof.
  intros Hm Hsum.
  pose proof (sumZ_seqZ_gauss (Z.to_nat (m + 1))) as Heven.
  rewrite <- half_product in Heven. rewrite Z2Nat.id in Heven by lia.
  replace (m + 1 - 1) with m in Heven by lia.
  replace ((m + 1) * m) with (m * (m + 1)) in Heven by lia.
  change (2 ^ 53) with 9007199254740992 in *.
  change (2 ^ 28) with 268435456. split; [lia|nia].
Qed.

(** The first [k] rounds of the loop, while nothing rounds. *)
Lemma while_loop_rounds_exact `{Arith D} (B : Z) (n : D) (m : Z) (k fuel : nat)
    (i step s : Z) :
  exact_up_to B -> 0 <= m < B ->
  d_leb (d_of_int m) n = true -> d_leb (d_of_int (m + 1)) n = false ->
  1 <= step -> 0 <= i -> 0 <= s ->
  (k <> 0%nat -> i + (Z.of_nat k - 1) * step <= m) ->
  i + Z.of_nat k * step <= B ->
  s + Z.of_nat k * i + step * (Z.of_nat k * (Z.of_nat k - 1) / 2) <= B ->
  while_loop (k + fuel) (d_of_int i) n (d_of_int step) (d_of_int s)
  = while_loop fuel (d_of_int (i + Z.of_nat k * step)) n (d_of_int step)
      (d_of_int (s + Z.of_nat k * i
                 + step * (Z.of_nat k * (Z.of_nat k - 1) / 2))).
Proof.
  intros exact Hm Hbelow Hnext Hstep. rewrite half_product. revert i s.
  induction k as [|k IH]; intros i s Hi Hs Htest Himax Hsmax.
  - simpl. do 2 f_equal; unfold sumZ; simpl; lia.
  - assert (0 <= sumZ (seqZ 0 (Z.of_nat k))).
    { rewrite <- half_product. apply Z.div_pos; [|lia].
      destruct k; [simpl|]; nia. }
    rewrite seqZ_S, sumZ_app in Hsmax |- *.
    change (sumZ [0 + Z.of_nat k]) with (0 + Z.of_nat k + 0) in Hsmax |- *.
    change (S k + fuel)%nat with (S (k + fuel)). cbn [while_loop].
    rewrite (leb_integer_part B exact n m) by (done || nia).
    rewrite (proj2 (Z.leb_le i m)) by nia.
    rewrite !(exact_add B exact) by nia.
    rewrite IH by (try nia; intros; nia).
    do 2 f_equal; nia.
Qed.

(** C1, as the code has it: in binary64, for every group size P (an [int],
    P >= 1) and every upper bound n >= 0 whose integer part m satisfies
    m (m + 1) / 2 <= 2^53, the per-rank cyclic range sums (rank r adds r,
    r+P, r+2P, ... while the term is <= n), combined by the sum reduction at
    rank 0 along any schedule, equal the sequential sum of i for i = 0..m,
    and the double that rank 0 holds is that integer exactly; in particular
    n = 10 with P = 4 gives 55, and n = 0 gives 0 for any P. *)
Theorem cyclic_sum_is_sequential_sum (csize m : Z) (n : float)
    (junk : nat -> float) (sched : Schedule) (fuel : nat) :
  1 <= csize < 2 ^ 31 -> 0 <= m -> m * (m + 1) / 2 <= 2 ^ 53 ->
  PrimFloat.leb (d_of_int m) n = true ->
  PrimFloat.leb (d_of_int (m + 1)) n = false ->
  valid_schedule (Z.to_nat csize) sched ->
  m + 1 < Z.of_nat fuel ->
  ParallelSum.main csize n junk sched fuel
    = Some (d_of_int (sequential_sum m)) /\
  integer_value (d_of_int (sequential_sum m)) = Some (sequential_sum m) /\
  (csize = 4 -> m = 10 ->
   ParallelSum.main csize n junk sched fuel = Some 55%float) /\
  (m = 0 -> ParallelSum.main csize n junk sched fuel = Some 0%float).
Proof.
  intros Hcsize Hm Hsum Hbelow Hnext Hsched Hfuel.
  destruct (small_bound m Hm Hsum) as [Hsum2 Hm28].
  change (2 ^ 28) with 268435456 in Hm28.
  change (2 ^ 31) with 2147483648 in Hcsize.
  assert (H53 : 2 ^ 53 = 9007199254740992) by reflexivity.
  assert (Hmain : ParallelSum.main csize n junk sched fuel
                  = Some (d_of_int (sequential_sum m))).
  { apply (ParallelSum_main_exact (2 ^ 53) binary64_exact n m);
      (done || lia). }
  split; [done|]. split.
  - apply integer_value_of_int. rewrite sequential_sum_gauss by done.
    split; [|done]. apply Z.div_pos; nia.
  - split.
    + intros _ ->. by rewrite Hmain.
    + intros ->. by rewrite Hmain.
Qed.

Lemma cyclic_sum_is_sequential_sum_witness :
  ParallelSum.main 4 10%float (fun _ => 77%float) (rank_order 3) 12
    = Some (d_of_int (sequential_sum 10)) /\
  integer_value (d_of_int (sequential_sum 10)) = Some (sequential_sum 10) /\
  ((4:Z) = 4 -> (10:Z) = 10 ->
   ParallelSum.main 4 10%float (fun _ => 77%float) (rank_order 3) 12
     = Some 55%float) /\
  ((10:Z) = 0 ->
   ParallelSum.main 4 10%float (fun _ => 77%float) (rank_order 3) 12
     = Some 0%float).
Proof.
  apply (cyclic_sum_is_sequential_sum 4 10 10%float (fun _ => 77%float)
           (rank_order 3) 12).
  - lia.
  - lia.
  - vm_compute. discriminate.
  - reflexivity.
  - reflexivity.
  - apply (rank_order_valid 3).
  - simpl. lia.
Defined.

(** C1 as stated fails for large bounds: on one rank with n = 134217729
    the last addition rounds, and rank 0 holds 9007199456067584 where the
    sequential sum of i for i = 0..n is 9007199456067585. *)
Lemma cyclic_sum_rounds_above_2_53 :
  ParallelSum.main 1 134217729%float (fun _ => 0%float) (Leaf 0)
    (Z.to_nat 134217731) = Some 9007199456067584%float /\
  integer_value 9007199456067584%float = Some 9007199456067584 /\
  sequential_sum 134217729 = 9007199456067585.
Proof.
  split; [|split].
  - rewrite (ParallelSum_reduces_partial_sums 1 134217729%float
               (fun _ => 0%float) (Z.to_nat 134217731)
               (fun _ => 9007199456067584%float)); [reflexivity|].
    intros prank Hprank. assert (prank = 0%nat) as -> by lia.
    unfold partial_sum.
    remember (Z.to_nat 134217728) as k eqn:Hk.
    assert (Hk' : Z.of_nat k = 134217728) by lia.
    replace (Z.to_nat 134217731) with (k + 3)%nat by lia.
    change (while_loop (k + 3) (d_of_int 0) 134217729%float (d_of_int 1)
              (d_of_int 0) = Some 9007199456067584%float).
    rewrite (while_loop_rounds_exact (2 ^ 53) 134217729%float 134217729 k 3
               0 1 0 binary64_exact); rewrite ?Hk'.
    + vm_compute. reflexivity.
    + split; vm_compute; [discriminate|reflexivity].
    + reflexivity.
    + reflexivity.
    + vm_compute. discriminate.
    + vm_compute. discriminate.
    + vm_compute. discriminate.
    + intros _. vm_compute. discriminate.
    + vm_compute. discriminate.
    + vm_compute. discriminate.
  - vm_compute. reflexivity.
  - rewrite sequential_sum_gauss by lia. reflexivity.
Qed.

(** X3: in binary64 the program computes the series of its header by its
    closed form: for every group size and every integer bound n >= 0 with
    n (n + 1) / 2 <= 2^53, rank 0 holds n (n + 1) / 2 exactly. *)
Theorem ParallelSum_main_gauss (csize n : Z) (junk : nat -> float)
    (sched : Schedule) (fuel : nat) :
  1 <= csize < 2 ^ 31 -> 0 <= n -> n * (n + 1) / 2 <= 2 ^ 53 ->
  valid_schedule (Z.to_nat csize) sched ->
  n + 1 < Z.of_nat fuel ->
  ParallelSum.main csize (d_of_int n) junk sched fuel
    = Some (d_of_int (n * (n + 1) / 2)) /\
  integer_value (d_of_int (n * (n + 1) / 2)) = Some (n * (n + 1) / 2).
Proof.
  intros Hcsize Hn Hsum Hsched Hfuel.
  destruct (small_bound n Hn Hsum) as [Hsum2 Hn28].
  change (2 ^ 28) with 268435456 in Hn28.
  change (2 ^ 31) with 2147483648 in Hcsize.
  assert (H53 : 2 ^ 53 = 9007199254740992) by reflexivity.
  destruct (integer_bound (2 ^ 53) binary64_exact n) as [Hbelow Hnext]; [lia|].
  rewrite <- sequential_sum_gauss by done. split.
  - apply (ParallelSum_main_exact (2 ^ 53) binary64_exact (d_of_int n) n);
      (done || lia).
  - apply integer_value_of_int. rewrite sequential_sum_gauss by done.
    split; [|done]. apply Z.div_pos; nia.
Qed.

Lemma ParallelSum_main_gauss_witness :
  ParallelSum.main 3 (d_of_int 100) (fun _ => 77%float) (rank_order 2) 102
    = Some (d_of_int (100 * (100 + 1) / 2)) /\
  integer_value (d_of_int (100 * (100 + 1) / 2)) = Some (100 * (100 + 1) / 2).
Proof.
  apply (ParallelSum_main_gauss 3 100 (fun _ => 77%float) (rank_order 2) 102).
  - lia.
  - lia.
  - vm_compute. discriminate.
  - apply (rank_order_valid 2).
  - lia.
Defined.

(** X4: in binary64, with a bound n of integer part m and
    m (m + 1) / 2 <= 2^53, rank r of P with r <= m executes the loop body
    exactly k + 1 = (m - r) / P + 1 times (the loop needs k + 2 tests), and
    its partial sum is the arithmetic series (k + 1) r + P k (k + 1) / 2. *)
Theorem partial_sum_rounds (csize prank m : Z) (n : float) (fuel : nat) :
  1 <= csize < 2 ^ 31 -> 0 <= prank <= m -> m * (m + 1) / 2 <= 2 ^ 53 ->
  PrimFloat.leb (d_of_int m) n = true ->
  PrimFloat.leb (d_of_int (m + 1)) n = false ->
  partial_sum fuel prank csize n
  = if decide (Z.of_nat fuel <= (m - prank) / csize + 1) then None
    else Some (d_of_int
                 (((m - prank) / csize + 1) * prank
                  + csize * (((m - prank) / csize + 1)
                             * ((m - prank) / csize) / 2))).
Proof.
  intros Hcsize Hprank Hsum Hbelow Hnext.
  destruct (small_bound m ltac:(lia) Hsum) as [Hsum2 Hm28].
  change (2 ^ 28) with 268435456 in Hm28.
  change (2 ^ 31) with 2147483648 in Hcsize.
  assert (H53 : 2 ^ 53 = 9007199254740992) by reflexivity.
  rewrite (partial_sum_exact (2 ^ 53) binary64_exact n m) by (done || lia).
  rewrite partial_sum_iterations by lia. by case_decide.
Qed.

Lemma partial_sum_rounds_witness :
  partial_sum 4 2 4 10.5%float
  = if decide (Z.of_nat 4 <= (10 - 2) / 4 + 1) then None
    else Some (d_of_int
                 (((10 - 2) / 4 + 1) * 2
                  + 4 * (((10 - 2) / 4 + 1) * ((10 - 2) / 4) / 2))).
Proof.
  apply (partial_sum_rounds 4 2 10 10.5%float 4).
  - lia.
  - lia.
  - vm_compute. discriminate.
  - reflexivity.
  - reflexivity.
Defined.

(** X5: in binary64 a bound with a fractional part counts as its integer
    part: for every double n with m <= n < m + 1 and m (m + 1) / 2 <= 2^53
    the run prints what the run with the bound m prints, the sum
    0 + 1 + ... + m. *)
Theorem ParallelSum_main_fraction (csize m : Z) (n : float)
    (junk junk' : nat -> float) (sched : Schedule) (fuel : nat) :
  1 <= csize < 2 ^ 31 -> 0 <= m -> m * (m + 1) / 2 <= 2 ^ 53 ->
  PrimFloat.leb (d_of_int m) n = true ->
  PrimFloat.leb (d_of_int (m + 1)) n = false ->
  valid_schedule (Z.to_nat csize) sched ->
  m + 1 < Z.of_nat fuel ->
  ParallelSum.main csize n junk sched fuel
    = ParallelSum.main csize (d_of_int m) junk' sched fuel /\
  ParallelSum.main csize n junk sched fuel
    = Some (d_of_int (sequential_sum m)).
Proof.
  intros Hcsize Hm Hsum Hbelow Hnext Hsched Hfuel.
  destruct (small_bound m Hm Hsum) as [Hsum2 Hm28].
  change (2 ^ 28) with 268435456 in Hm28.
  change (2 ^ 31) with 2147483648 in Hcsize.
  assert (H53 : 2 ^ 53 = 9007199254740992) by reflexivity.
  destruct (integer_bound (2 ^ 53) binary64_exact m) as [Hbelow' Hnext'];
    [lia|].
  rewrite (ParallelSum_main_exact (2 ^ 53) binary64_exact n m)
    by (done || lia).
  by rewrite (ParallelSum_main_exact (2 ^ 53) binary64_exact (d_of_int m) m)
    by (done || lia).
Qed.

Lemma ParallelSum_main_fraction_witness :
  ParallelSum.main 4 10.75%float (fun _ => 0%float) (rank_order 3) 12
    = ParallelSum.main 4 (d_of_int 10) (fun _ => 77%float) (rank_order 3) 12 /\
  ParallelSum.main 4 10.75%float (fun _ => 0%float) (rank_order 3) 12
    = Some (d_of_int (sequential_sum 10)).
Proof.
  apply (ParallelSum_main_fraction 4 10 10.75%float (fun _ => 0%float)
           (fun _ => 77%float) (rank_order 3) 12).
  - lia.
  - lia.
  - vm_compute. discriminate.
  - reflexivity.
  - reflexivity.
  - apply (rank_order_valid 3).
  - simpl. lia.
Defined.

(** * Further properties *)

(** ** Loading the vector *)


(** ** More ranks than rows *)

(** X8: with more ranks than the vector has entries every rank is given 0
    rows: the run issues its four collectives and returns 0, but no entry of
    the result is computed, and the file holds the N values that the
    allocation of [res] held. *)
Theorem more_ranks_than_rows `{Arith D} (csize : Z) (vfile mfile : list D)
    (junk_dim : nat -> Z) (junk : nat -> Site -> nat -> D) (fmt : D -> string) :
  Z.of_nat (length vfile) < csize ->
  (length mfile <= length vfile * length vfile)%nat ->
  Z.of_nat (length vfile) * Z.of_nat (length vfile) <= INT_MAX ->
  exists f,
    logRes fmt (new_double (junk 0%nat at_res) (length vfile)) (length vfile)
      = Some f /\
    main csize vfile mfile junk_dim junk fmt
    = Some {| issued := [Bcast; Bcast; Scatter; Gather];
              res := new_double (junk 0%nat at_res) (length vfile);
              Result_txt := f; exit_code := 0 |}.
Proof.
  intros Hcsize Hmfile Hdim.
  set (P := Z.to_nat csize).
  assert (HP : csize = Z.of_nat P) by (unfold P; lia).
  assert (HP1 : (1 <= P)%nat) by lia.
  destruct (MatrixVector_main_run P vfile mfile junk_dim junk fmt HP1 Hmfile Hdim)
    as (f & Hf & Hrun).
  rewrite <- HP in Hrun.
  assert (Hrows : (length vfile `div` P = 0)%nat) by (apply Nat.div_small; lia).
  rewrite Hrows in Hf, Hrun.
  assert (Hres : MPI_Gather ((fun _ : nat => @nil D) <$> seq 0 P) 0
                   (new_double (junk 0%nat at_res) (length vfile))
                 = new_double (junk 0%nat at_res) (length vfile)).
  { rewrite MPI_Gather_whole_blocks.
    - rewrite Nat.mul_0_r, drop_0.
      assert (Hnil : concat ((fun _ : nat => @nil D) <$> seq 0 P) = []).
      { generalize (seq 0 P) as l. intros l.
        induction l as [|? ? IH]; [done|]. simpl. exact IH. }
      by rewrite Hnil.
    - apply Forall_fmap, Forall_forall. by intros.
    - lia. }
  simpl in Hf, Hrun. rewrite Hres in Hf, Hrun. by exists f.
Qed.

Lemma more_ranks_than_rows_witness :
  exists f,
    logRes printf_lf (new_double ((fun _ _ k => Z.of_nat k + 40) 0%nat at_res)
                        (length [1; 2])) (length [1; 2])
      = Some f /\
    main 3 [1; 2] [1; 0; 0; 1] (fun _ => 7) (fun _ _ k => Z.of_nat k + 40) printf_lf
    = Some {| issued := [Bcast; Bcast; Scatter; Gather];
              res := new_double ((fun _ _ k => Z.of_nat k + 40) 0%nat at_res)
                       (length [1; 2]);
              Result_txt := f; exit_code := 0 |}.
Proof.
  apply (more_ranks_than_rows 3 [1; 2] [1; 0; 0; 1] (fun _ => 7)
           (fun _ _ k => Z.of_nat k + 40) printf_lf).
  - simpl. lia.
  - simpl. lia.
  - vm_compute. discriminate.
Defined.

(** ** The group size does not show in the result *)

Section GroupSize.
Context `{Arith D}.

(** The blocks of rows that the ranks send back, gathered in rank order, are
    the rows of the whole product. *)
Lemma gathered_product (P : nat) (vfile mfile : list D) (junk : nat -> D) :
  (1 <= P)%nat -> (length vfile `mod` P = 0)%nat ->
  length mfile = (length vfile * length vfile)%nat ->
  MPI_Gather
    ((fun r : nat =>
        dot (length vfile)
          (take (length vfile `div` P * length vfile)
             (drop (r * (length vfile `div` P * length vfile)) mfile)) vfile
          <$> seq 0 (length vfile `div` P)) <$> seq 0 P)
    (length vfile `div` P) (new_double junk (length vfile))
  = dot (length vfile) mfile vfile <$> seq 0 (length vfile).
Proof.
  intros HP1 Hmod Hmfile.
  set (N := length vfile) in *. set (rows := (N `div` P)%nat).
  assert (HN : N = (P * rows)%nat) by (apply Nat.Div0.div_exact; lia).
  rewrite MPI_Gather_whole_blocks.
  - rewrite drop_ge, app_nil_r
      by (rewrite length_fmap, length_seq, length_new_double; lia).
    rewrite <- (concat_blocks P rows (dot N mfile vfile <$> seq 0 N))
      by (by rewrite length_fmap, length_seq).
    f_equal. apply list_fmap_ext. intros r ? [-> Hr]%lookup_seq. simpl.
    rewrite <- fmap_drop, <- fmap_take, drop_seq, take_seq.
    replace (rows `min` (N - r * rows))%nat with rows by nia.
    replace (0 + r * rows)%nat with (r * rows + 0)%nat by lia.
    rewrite <- fmap_add_seq, <- list_fmap_compose.
    apply list_fmap_ext. intros i ? [-> Hi]%lookup_seq. simpl.
    replace (r * (rows * N))%nat with (r * rows * N)%nat by lia.
    apply dot_block; [lia|]. rewrite Hmfile. nia.
  - apply Forall_fmap, Forall_forall. intros r _. simpl.
    by rewrite length_fmap, length_seq.
  - rewrite length_fmap, length_seq, length_new_double. lia.
Qed.

(** The run on a group whose size divides the dimension, as a function of
    the two files alone. *)
Lemma MatrixVector_main_divides (P : nat) (vfile mfile : list D)
    (junk_dim : nat -> Z) (junk : nat -> Site -> nat -> D) (fmt : D -> string) :
  (1 <= P)%nat -> (length vfile `mod` P = 0)%nat ->
  length mfile = (length vfile * length vfile)%nat ->
  Z.of_nat (length vfile) * Z.of_nat (length vfile) <= INT_MAX ->
  main (Z.of_nat P) vfile mfile junk_dim junk fmt
  = (f ← logRes fmt (dot (length vfile) mfile vfile <$> seq 0 (length vfile))
         (length vfile);
     Some {| issued := [Bcast; Bcast; Scatter; Gather];
             res := dot (length vfile) mfile vfile <$> seq 0 (length vfile);
             Result_txt := f; exit_code := 0 |}).
Proof.
  intros HP1 Hmod Hmfile Hdim.
  destruct (MatrixVector_main_run P vfile mfile junk_dim junk fmt HP1)
    as (f & Hf & Hrun); [lia|done|].
  assert (Hmsz : ((length vfile * length vfile) `div` P
                  = length vfile `div` P * length vfile)%nat).
  { assert (HN : length vfile = (P * (length vfile `div` P))%nat)
      by (apply Nat.Div0.div_exact; lia).
    rewrite HN at 1. rewrite <- Nat.mul_assoc, Nat.mul_comm.
    rewrite Nat.div_mul by lia. done. }
  rewrite Hmsz in Hf, Hrun.
  rewrite drop_ge, app_nil_r in Hf, Hrun by (rewrite length_new_double; lia).
  rewrite gathered_product in Hf, Hrun by done.
  by rewrite Hrun, Hf.
Qed.
End GroupSize.

(** X9: the group size does not show in the result.  On the same two files,
    two runs on groups whose sizes both divide the dimension leave the same
    [res] and write the same file, whatever the fresh allocations and the
    uninitialised [dim] of the other ranks held in either run. *)
Theorem MatrixVector_main_any_group_size `{Arith D} (P1 P2 : nat)
    (vfile mfile : list D) (junk_dim1 junk_dim2 : nat -> Z)
    (junk1 junk2 : nat -> Site -> nat -> D) (fmt : D -> string) :
  (1 <= P1)%nat -> (length vfile `mod` P1 = 0)%nat ->
  (1 <= P2)%nat -> (length vfile `mod` P2 = 0)%nat ->
  length mfile = (length vfile * length vfile)%nat ->
  Z.of_nat (length vfile) * Z.of_nat (length vfile) <= INT_MAX ->
  is_Some (main (Z.of_nat P1) vfile mfile junk_dim1 junk1 fmt) /\
  main (Z.of_nat P1) vfile mfile junk_dim1 junk1 fmt
  = main (Z.of_nat P2) vfile mfile junk_dim2 junk2 fmt.
Proof.
  intros HP1 Hmod1 HP2 Hmod2 Hmfile Hdim.
  rewrite !MatrixVector_main_divides by done.
  split; [|done].
  destruct (logRes_total fmt
              (dot (length vfile) mfile vfile <$> seq 0 (length vfile))
              (length vfile)) as [f Hf].
  { by rewrite length_fmap, length_seq. }
  by rewrite Hf.
Qed.

Lemma MatrixVector_main_any_group_size_witness :
  is_Some (main (Z.of_nat 1) [1; 2; 3; 4] (seqZ 0 16) (fun _ => 7)
             (fun _ _ _ => 99) printf_lf) /\
  main (Z.of_nat 1) [1; 2; 3; 4] (seqZ 0 16) (fun _ => 7)
    (fun _ _ _ => 99) printf_lf
  = main (Z.of_nat 4) [1; 2; 3; 4] (seqZ 0 16) (fun _ => -3)
      (fun _ _ k => Z.of_nat k) printf_lf.
Proof.
  apply (MatrixVector_main_any_group_size 1 4 [1; 2; 3; 4] (seqZ 0 16)
           (fun _ => 7) (fun _ => -3) (fun _ _ _ => 99)
           (fun _ _ k => Z.of_nat k) printf_lf).
  - lia.
  - reflexivity.
  - lia.
  - reflexivity.
  - reflexivity.
  - vm_compute. discriminate.
Defined.

(** ** The result file, block by block *)

Lemma foldr_line_app {D} (fmt : D -> string) (res1 res2 : list D) :
  foldr (fun x s => fmt x +:+ " " +:+ s) "" (res1 ++ res2)
  = foldr (fun x s => fmt x +:+ " " +:+ s) "" res1
    +:+ foldr (fun x s => fmt x +:+ " " +:+ s) "" res2.
Proof.
  induction res1 as [|x res1 IH]; [done|].
  simpl. by rewrite IH, !string_app_assoc.
Qed.

(** X10: the file [logRes] writes for an array made of two blocks is the
    text it writes for the first block followed by the text it writes for
    the second: no separator is lost or doubled where the blocks of two
    ranks meet. *)
Theorem logRes_app {D} (fmt : D -> string) (res1 res2 : list D) :
  logRes fmt (res1 ++ res2) (length (res1 ++ res2))
  = (f1 ← logRes fmt res1 (length res1);
     f2 ← logRes fmt res2 (length res2);
     Some (f1 +:+ f2)).
Proof.
  unfold logRes. rewrite !logRes_loop_spec by done.
  rewrite !drop_0, !firstn_all. simpl. by rewrite foldr_line_app.
Qed.

(** ** The kernel writes its own rows only *)

(** X11: on an output array longer than the rank's share the kernel writes
    the cells [0 .. to-1], one dot product each, and leaves every other cell
    as it was; the array keeps its length. *)
Theorem local_multiply_frame `{Arith D} (mat vec lres : list D) (to dim : nat) :
  (to * dim <= length mat)%nat -> (dim <= length vec)%nat ->
  (to <= length lres)%nat ->
  exists out,
    local_multiply mat vec to dim lres = Some out /\
    length out = length lres /\
    take to out = dot dim mat vec <$> seq 0 to /\
    drop to out = drop to lres.
Proof.
  intros Hmat Hvec Hlres. unfold local_multiply.
  destruct (rows_loop_spec to 0 mat vec dim lres)
    as (out & Hout & Hlen & Hin & Hkeep); [lia..|].
  exists out. split; [done|]. split; [done|]. split.
  - apply list_eq. intros k. rewrite list_lookup_fmap.
    destruct (decide (k < to)%nat) as [Hk|Hk].
    + rewrite lookup_take_lt by done. rewrite Hin by lia.
      by rewrite lookup_seq_lt.
    + rewrite lookup_take_ge by lia. by rewrite lookup_seq_ge by lia.
  - apply list_eq. intros k. rewrite !lookup_drop. apply Hkeep. lia.
Qed.

Lemma local_multiply_frame_witness :
  exists out,
    local_multiply [1; 2; 3; 4; 5; 6] [10; 20; 30] 2 3 [7; 7; 7; 7] = Some out /\
    length out = length [7; 7; 7; 7] /\
    take 2 out = dot 3 [1; 2; 3; 4; 5; 6] [10; 20; 30] <$> seq 0 2 /\
    drop 2 out = drop 2 [7; 7; 7; 7].
Proof.
  apply (local_multiply_frame [1; 2; 3; 4; 5; 6] [10; 20; 30] [7; 7; 7; 7] 2 3).
  - simpl. lia.
  - simpl. lia.
  - simpl. lia.
Defined.

(** ** A matrix file that is too short *)

(** X12: [loadMat] does not check how many numbers the file holds.  When
    n * n fits an [int], from a file with fewer than n * n numbers it returns
    an array of n * n cells that starts with the numbers of the file; the
    cells after them are never written and hold what the allocation held. *)
Theorem loadMat_short_file `{Arith D} (file : list D) (n : nat)
    (junk : nat -> D) :
  Z.of_nat n * Z.of_nat n <= INT_MAX ->
  (length file <= n * n)%nat ->
  exists mat,
    loadMat file n junk = Some mat /\
    length mat = (n * n)%nat /\
    take (length file) mat = file /\
    forall k, (length file <= k < n * n)%nat -> mat !! k = Some (junk k).
Proof.
  intros Hint Hlen. unfold loadMat.
  rewrite option_guard_True by done. simpl. rewrite load_Some by done.
  eexists. split; [done|].
  rewrite length_app, length_drop, length_new_double.
  split; [lia|]. split.
  - by rewrite take_app_length.
  - intros k Hk. rewrite lookup_app_r by lia.
    rewrite lookup_drop, lookup_new_double by lia. do 2 f_equal. lia.
Qed.

Lemma loadMat_short_file_witness :
  exists mat,
    loadMat [1; 2; 3] 2 (fun k => Z.of_nat k + 40) = Some mat /\
    length mat = (2 * 2)%nat /\
    take (length [1; 2; 3]) mat = [1; 2; 3] /\
    forall k, (length [1; 2; 3] <= k < 2 * 2)%nat ->
      mat !! k = Some ((fun k => Z.of_nat k + 40) k).
Proof.
  apply (loadMat_short_file [1; 2; 3] 2 (fun k => Z.of_nat k + 40)).
  - vm_compute. discriminate.
  - simpl. lia.
Defined.

(** ** The OpenMP sums *)

Lemma sumZ_fmap_add {A} (a b : A -> Z) (l : list A) :
  sumZ ((fun k => a k + b k) <$> l) = sumZ (a <$> l) + sumZ (b <$> l).
Proof.
  induction l as [|k l IH]; [done|].
  rewrite !fmap_cons. unfold sumZ in *. simpl. lia.
Qed.

(** Of the threads [s .. s + T - 1] only thread [c] takes the iteration. *)
Lemma sumZ_one_owner (c : nat) (x : Z) (s T : nat) :
  sumZ ((fun k => if decide (c = k) then x else 0) <$> seq s T)
  = if decide (s <= c < s + T)%nat then x else 0.
Proof.
  revert s. induction T as [|T IH]; intros s.
  - simpl. by rewrite decide_False by lia.
  - change (sumZ ((fun k => if decide (c = k) then x else 0) <$> seq s (S T)))
      with ((if decide (c = s) then x else 0)
            + sumZ ((fun k => if decide (c = k) then x else 0) <$> seq (S s) T)).
    rewrite IH. repeat case_decide; lia.
Qed.

(** Every iteration is run by one thread: the private sums add up to the sum
    over all iterations. *)
Lemma sumZ_private_sums (T : nat) (g : Z -> nat) (l : list Z) :
  (forall i, (g i < T)%nat) ->
  sumZ ((fun k => sumZ (filter (fun i => g i = k) l)) <$> seq 0 T) = sumZ l.
Proof.
  intros Hg. induction l as [|x l IH].
  - apply sumZ_zeros, Forall_fmap, Forall_forall. by intros.
  - transitivity
      (sumZ ((fun k => (if decide (g x = k) then x else 0)
                       + sumZ (filter (fun i => g i = k) l)) <$> seq 0 T)).
    + f_equal. apply list_fmap_ext. intros _ k _. simpl.
      rewrite filter_cons. by case_decide.
    + rewrite sumZ_fmap_add, IH, sumZ_one_owner.
      rewrite decide_True by (specialize (Hg x); lia). done.
Qed.

Lemma private_sum_sumZ (mine : list Z) :
  OpenMP.private_sum (D:=Z) mine = sumZ mine.
Proof.
  unfold OpenMP.private_sum.
  change (foldl Z.add 0 mine = sumZ mine). by rewrite foldl_add_sumZ.
Qed.

Lemma sumZ_seqZ_from_1 (n : Z) :
  sumZ (seqZ 1 (n - 1 + 1)) = if decide (0 <= n) then n * (n + 1) / 2 else 0.
Proof.
  case_decide as Hn.
  - rewrite <- sequential_sum_gauss by done.
    unfold sequential_sum. rewrite foldl_add_sumZ.
    replace (n + 1) with (Z.succ n) by lia.
    rewrite (seqZ_cons 0) by lia. unfold sumZ at 2. simpl foldr.
    fold (sumZ (seqZ (Z.succ 0) (Z.pred (Z.succ n)))).
    replace (Z.pred (Z.succ n)) with (n - 1 + 1) by lia.
    change (Z.succ 0) with 1. lia.
  - by rewrite seqZ_nil by lia.
Qed.

(** The reduction loop in exact arithmetic. *)
Lemma parallel_for_reduction_sum (threads n : Z) (owner : Z -> nat)
    (t : Schedule) :
  1 <= threads ->
  valid_schedule (S (Z.to_nat threads)) t ->
  OpenMP.parallel_for_reduction (D:=Z) threads 0 n owner t
  = Some (if decide (0 <= n) then n * (n + 1) / 2 else 0).
Proof.
  intros Hthreads Ht. unfold OpenMP.parallel_for_reduction.
  rewrite option_guard_True by done. simpl.
  change (@d_add Z _) with Z.add.
  rewrite (MPI_Reduce_any_schedule Z.add Z.add_assoc Z.add_comm)
    by (by rewrite length_cons, length_fmap, length_seq).
  simpl. rewrite foldl_add_sumZ. f_equal.
  rewrite <- sumZ_seqZ_from_1.
  rewrite <- (sumZ_private_sums (Z.to_nat threads)
                (fun i => (owner i `mod` Z.to_nat threads)%nat)
                (seqZ 1 (n - 1 + 1)))
    by (intros i; apply Nat.mod_upper_bound; lia).
  rewrite Z.add_0_l. f_equal. apply list_fmap_ext. intros _ k _. simpl.
  apply private_sum_sumZ.
Qed.

Section ExactOpenMP.
Context `{Arith D} (B : Z).
Hypothesis exact : exact_up_to B.

(** One thread's copy of [sum] holds the sum of its iterations. *)
Lemma private_sum_exact (mine : list Z) :
  Forall (fun i => 0 <= i) mine -> sumZ mine <= B ->
  OpenMP.private_sum mine = d_of_int (sumZ mine).
Proof.
  intros Hpos Hsum. unfold OpenMP.private_sum.
  rewrite (exact_zero B exact), (foldl_add_exact B exact) by (done || lia).
  by rewrite Z.add_0_l.
Qed.

(** The reduction loop on doubles is the loop on integers while
    1 + 2 + ... + n stays within [B]. *)
Lemma parallel_for_reduction_exact (threads n : Z) (owner : Z -> nat)
    (t : Schedule) :
  1 <= threads -> 0 <= B -> (0 <= n -> n * (n + 1) <= 2 * B) ->
  valid_schedule (S (Z.to_nat threads)) t ->
  OpenMP.parallel_for_reduction threads d_zero n owner t
  = Some (d_of_int (if decide (0 <= n) then n * (n + 1) / 2 else 0)).
Proof.
  intros Hthreads HB Hn Ht.
  pose proof (parallel_for_reduction_sum threads n owner t Hthreads Ht)
    as Hexact.
  unfold OpenMP.parallel_for_reduction in Hexact |- *.
  rewrite option_guard_True in Hexact by done.
  rewrite option_guard_True by done. simpl in Hexact |- *.
  set (its := OpenMP.iterations_of (Z.to_nat threads) owner 1 n) in *.
  assert (Hits : forall k, Forall (fun i => 0 <= i) (its k)).
  { intros k. apply Forall_forall. intros i Hi.
    apply list_elem_of_filter in Hi as [_ Hi].
    apply elem_of_seqZ in Hi. lia. }
  assert (Hall : sumZ (seqZ 1 (n - 1 + 1)) <= B).
  { rewrite sumZ_seqZ_from_1. case_decide; [|done].
    apply Z.div_le_upper_bound; lia. }
  assert (Hle : forall k, sumZ (its k) <= B).
  { intros k.
    assert (0 <= sumZ (its k) <= sumZ (seqZ 1 (n - 1 + 1))); [|lia].
    apply sumZ_submseteq; [apply sublist_submseteq, sublist_filter|].
    apply Forall_forall. intros i Hi%elem_of_seqZ. lia. }
  assert (Hvals :
    d_zero :: (OpenMP.private_sum ∘ its <$> seq 0 (Z.to_nat threads))
    = d_of_int <$> (0 :: (sumZ ∘ its <$> seq 0 (Z.to_nat threads)))).
  { rewrite fmap_cons, <- (exact_zero B exact). f_equal.
    rewrite <- list_fmap_compose. apply list_fmap_ext. intros _ k _. simpl.
    by apply private_sum_exact. }
  assert (Hvals' :
    0 :: (OpenMP.private_sum (D:=Z) ∘ its <$> seq 0 (Z.to_nat threads))
    = 0 :: (sumZ ∘ its <$> seq 0 (Z.to_nat threads))).
  { f_equal. apply list_fmap_ext. intros _ k _. simpl.
    apply private_sum_sumZ. }
  change (@d_zero Z _) with 0 in Hexact. change (@d_add Z _) with Z.add in Hexact.
  rewrite Hvals' in Hexact. rewrite Hvals.
  rewrite (MPI_Reduce_exact B exact), Hexact; [done| | | |].
  - apply Forall_cons. split; [done|].
    apply Forall_fmap, Forall_forall. intros k _. simpl.
    by apply (sumZ_submseteq (its k) (its k)).
  - change (sumZ (0 :: (sumZ ∘ its <$> seq 0 (Z.to_nat threads))))
      with (0 + sumZ ((sumZ ∘ its) <$> seq 0 (Z.to_nat threads))).
    rewrite Z.add_0_l.
    rewrite <- (sumZ_private_sums (Z.to_nat threads)
                  (fun i => (owner i `mod` Z.to_nat threads)%nat)
                  (seqZ 1 (n - 1 + 1))) in Hall
      by (intros i; apply Nat.mod_upper_bound; lia).
    exact Hall.
  - unfold valid_schedule in Ht. rewrite Ht. apply NoDup_seq.
  - apply Forall_forall. intros rank Hrank.
    unfold valid_schedule in Ht. rewrite Ht in Hrank.
    apply elem_of_seq in Hrank.
    rewrite length_cons, length_fmap, length_seq. lia.
Qed.
End ExactOpenMP.

(** X13: in binary64 OMP_Parallel_Sum prints 1 + 2 + ... + k = k (k + 1) / 2
    for k = (int)n, exactly, when that sum is at most 2^53 (and 0 when k is
    negative), for every number of threads tc >= 1, whichever thread runs
    which iteration and in whichever order the private copies of [sum] are
    combined. *)
Theorem OMP_Parallel_Sum_main (cast_int : float -> Z) (tc : Z) (stdin : float)
    (owner : Z -> nat) (t : Schedule) :
  1 <= tc ->
  valid_schedule (S (Z.to_nat tc)) t ->
  (0 <= cast_int stdin -> cast_int stdin * (cast_int stdin + 1) / 2 <= 2 ^ 53) ->
  OpenMP.main cast_int tc stdin owner t
    = Some (d_of_int (if decide (0 <= cast_int stdin)
                      then cast_int stdin * (cast_int stdin + 1) / 2 else 0)) /\
  integer_value
    (d_of_int (if decide (0 <= cast_int stdin)
               then cast_int stdin * (cast_int stdin + 1) / 2 else 0))
    = Some (if decide (0 <= cast_int stdin)
            then cast_int stdin * (cast_int stdin + 1) / 2 else 0).
Proof.
  intros Htc Ht Hsum. set (k := cast_int stdin) in *.
  assert (Hk : 0 <= k -> k * (k + 1) <= 2 * 2 ^ 53 /\ k < 2 ^ 28).
  { intros Hk. apply small_bound; auto. }
  change (2 ^ 28) with 268435456 in Hk.
  assert (H53 : 2 ^ 53 = 9007199254740992) by reflexivity.
  split.
  - unfold OpenMP.main. fold k.
    rewrite option_guard_True by (unfold MatrixVector.INT_MAX; lia).
    apply (parallel_for_reduction_exact (2 ^ 53) binary64_exact); try done.
    intros Hk0. by destruct (Hk Hk0).
  - apply integer_value_of_int. case_decide as Hk0; [|done].
    split; [|auto]. apply Z.div_pos; nia.
Qed.

Lemma OMP_Parallel_Sum_main_witness :
  OpenMP.main (fun _ => 100) 4 100.5%float (fun i => Z.to_nat (i / 7))
    (rank_order 4) = Some (d_of_int 5050) /\
  integer_value (d_of_int 5050) = Some 5050.
Proof.
  apply (OMP_Parallel_Sum_main (fun _ => 100) 4 100.5%float
           (fun i => Z.to_nat (i / 7)) (rank_order 4)).
  - lia.
  - apply (rank_order_valid 4).
  - intros _. vm_compute. discriminate.
Defined.

(** The loop in binary64, with the iterations dealt out in chunks of 7 and
    with one thread running them all. *)
Example parallel_for_reduction_binary64 :
  OpenMP.parallel_for_reduction 4 0%float 100 (fun i => Z.to_nat (i / 7))
    (rank_order 4) = Some 5050%float /\
  OpenMP.parallel_for_reduction 4 0%float 100 (fun _ => 0%nat)
    (Node (Leaf 4) (Node (Node (Leaf 2) (Leaf 0)) (Node (Leaf 3) (Leaf 1))))
    = Some 5050%float.
Proof. split; reflexivity. Qed.

(** X14: in binary64 the four loops of the schedule demonstration print the
    same sum, N (N + 1) / 2 for the N of the command line when that sum is at
    most 2^53 (0 for a negative N), and [main] returns 0: within that range
    the schedule clause changes which thread runs which iteration, not the
    result. *)
Theorem schedule_demo_sums_agree (LONG_MAX : Z) (strtol : string -> Z)
    (threads : Z) (program arg : string) (o1 o2 o3 o4 : Z -> nat)
    (t1 t2 t3 t4 : Schedule) :
  2 ^ 31 - 1 <= LONG_MAX ->
  1 <= threads ->
  Forall (valid_schedule (S (Z.to_nat threads))) [t1; t2; t3; t4] ->
  (0 <= strtol arg -> strtol arg * (strtol arg + 1) / 2 <= 2 ^ 53) ->
  OpenMP.schedule_demo (D:=float) LONG_MAX strtol threads [program; arg]
    [o1; o2; o3; o4] [t1; t2; t3; t4]
  = let sum := d_of_int (if decide (0 <= strtol arg)
                         then strtol arg * (strtol arg + 1) / 2 else 0) in
    Some (OpenMP.Sums sum sum sum sum, 0).
Proof.
  intros Hlong Hthreads Hts Hsum. set (N := strtol arg) in *.
  assert (HN : 0 <= N -> N * (N + 1) <= 2 * 2 ^ 53 /\ N < 2 ^ 28).
  { intros HN. apply small_bound; auto. }
  change (2 ^ 28) with 268435456 in HN.
  change (2 ^ 31 - 1) with 2147483647 in Hlong.
  assert (H53 : 2 ^ 53 = 9007199254740992) by reflexivity.
  apply Forall_cons in Hts as [Ht1 Hts]. apply Forall_cons in Hts as [Ht2 Hts].
  apply Forall_cons in Hts as [Ht3 Hts]. apply Forall_cons in Hts as [Ht4 _].
  unfold OpenMP.schedule_demo. fold N.
  rewrite option_guard_True by lia.
  rewrite !(parallel_for_reduction_exact (2 ^ 53) binary64_exact);
    try done; intros HN0; by destruct (HN HN0).
Qed.

Lemma schedule_demo_sums_agree_witness :
  OpenMP.schedule_demo (D:=float) (2 ^ 63 - 1) (fun _ => 1000) 3
    ["demo"; "1000"]
    [fun i => Z.to_nat (i / 334); fun i => Z.to_nat i;
     fun i => Z.to_nat (i / 100); fun _ => 2%nat]
    [rank_order 3; Node (Leaf 3) (rank_order 2);
     Node (Node (Leaf 1) (Leaf 0)) (Node (Leaf 3) (Leaf 2)); rank_order 3]
  = let sum := d_of_int 500500 in Some (OpenMP.Sums sum sum sum sum, 0).
Proof.
  apply (schedule_demo_sums_agree (2 ^ 63 - 1) (fun _ => 1000) 3
           "demo" "1000"
           (fun i => Z.to_nat (i / 334)) (fun i => Z.to_nat i)
           (fun i => Z.to_nat (i / 100)) (fun _ => 2%nat)
           (rank_order 3) (Node (Leaf 3) (rank_order 2))
           (Node (Node (Leaf 1) (Leaf 0)) (Node (Leaf 3) (Leaf 2)))
           (rank_order 3)).
  - vm_compute. discriminate.
  - lia.
  - repeat apply Forall_cons_2; [..|apply Forall_nil_2];
      unfold valid_schedule; simpl; by apply (bool_decide_unpack _).
  - intros _. vm_compute. discriminate.
Defined.

(** ** The barrier *)

Section Barrier.
Import OMPBarrier.

Lemma lookup_insert_cases {A} (l : list A) (k j : nat) (y p : A) :
  <[k:=y]> l !! j = Some p ->
  (j = k /\ p = y) \/ (j <> k /\ l !! j = Some p).
Proof.
  intros Hj. destruct (decide (j = k)) as [->|Hne].
  - left. split; [done|].
    rewrite list_lookup_insert_eq in Hj; [congruence|].
    apply lookup_lt_Some in Hj. by rewrite length_insert in Hj.
  - right. split; [done|]. by rewrite list_lookup_insert_ne in Hj.
Qed.

Lemma elem_of_insert_cases {A} (l : list A) (k : nat) (y x : A) :
  x ∈ <[k:=y]> l -> x = y \/ x ∈ l.
Proof.
  intros [j Hj]%list_elem_of_lookup_1.
  destruct (lookup_insert_cases _ _ _ _ _ Hj) as [[_ ->]|[_ Hl]]; [by left|].
  right. by eapply list_elem_of_lookup_2.
Qed.

Lemma team_invariant_parallel (threads : nat) :
  team_invariant (parallel threads).
Proof.
  exists [], []. simpl. repeat split; try apply NoDup_nil_2.
  - by intros ?%elem_of_nil.
  - intros (p & [-> _]%lookup_replicate & Hp). done.
  - by intros ?%elem_of_nil.
  - by intros [? _]%lookup_replicate.
  - intros _ k p [-> _]%lookup_replicate. by left.
Qed.

Lemma team_invariant_step (k : nat) (s s' : Team) :
  team_invariant s -> thread_step k s = Some s' -> team_invariant s'.
Proof.
  intros (l1 & l2 & Hout & Hnd1 & Hnd2 & Hl1 & Hl2 & Hwait) Hstep.
  unfold thread_step in Hstep.
  destruct (points s !! k) as [[| | |]|] eqn:Hk; [| | |done|done].
  - (* the first printf *)
    injection Hstep as <-.
    pose proof (Hwait (list_elem_of_lookup_2 _ _ _ Hk)) as Hall.
    assert (Hnil : l2 = []).
    { destruct l2 as [|j l2]; [done|].
      destruct (Hall j at_end) as [?|?]; [|done..].
      apply Hl2, list_elem_of_here. }
    subst l2. exists (l1 ++ [k]), []. simpl.
    split; [by rewrite Hout, fmap_app, !app_nil_r|].
    split.
    { apply NoDup_app. split; [done|]. split; [|apply NoDup_singleton].
      intros j Hj ->%list_elem_of_singleton.
      apply Hl1 in Hj as (p & Hp & Hne). congruence. }
    split; [apply NoDup_nil_2|]. split; [|split].
    + intros j. rewrite elem_of_app, list_elem_of_singleton, Hl1. split.
      * intros [(p & Hp & Hne)| ->].
        -- exists p. split; [|done]. rewrite list_lookup_insert_ne; [done|].
           intros ->. congruence.
        -- exists at_barrier. split; [|done].
           apply list_lookup_insert_eq. by eapply lookup_lt_Some.
      * intros (p & Hp & Hne).
        destruct (lookup_insert_cases _ _ _ _ _ Hp) as [[-> _]|[_ Hold]];
          [by right|]. left. by exists p.
    + intros j. split; [by intros ?%elem_of_nil|]. intros Hj.
      destruct (lookup_insert_cases _ _ _ _ _ Hj) as [[_ ?]|[_ Hold]]; [done|].
      by destruct (Hall j at_end Hold).
    + intros _ j p Hp.
      destruct (lookup_insert_cases _ _ _ _ _ Hp) as [[_ ->]|[_ Hold]];
        [by right|]. by apply (Hall j).
  - (* the barrier *)
    case_decide as Harrived; [done|]. injection Hstep as <-.
    exists l1, l2. simpl. split; [done|]. split; [done|]. split; [done|].
    split; [|split].
    + intros j. rewrite Hl1. split.
      * intros (p & Hp & Hne). destruct (decide (j = k)) as [->|Hjk].
        -- exists at_printf2. split; [|done].
           apply list_lookup_insert_eq. by eapply lookup_lt_Some.
        -- exists p. by rewrite list_lookup_insert_ne.
      * intros (p & Hp & Hne).
        destruct (lookup_insert_cases _ _ _ _ _ Hp) as [[-> _]|[_ Hold]].
        -- by exists at_barrier.
        -- by exists p.
    + intros j. rewrite Hl2. split.
      * intros Hj. rewrite list_lookup_insert_ne; [done|].
        intros ->. congruence.
      * intros Hj.
        by destruct (lookup_insert_cases _ _ _ _ _ Hj) as [[_ ?]|[_ Hold]].
    + intros [?|?]%elem_of_insert_cases; done.
  - (* the second printf *)
    injection Hstep as <-.
    assert (Harrived : at_printf1 ∉ points s).
    { intros Hin. by destruct (Hwait Hin k at_printf2 Hk). }
    exists l1, (l2 ++ [k]). simpl.
    split; [by rewrite Hout, fmap_app, app_assoc|].
    split; [done|]. split.
    { apply NoDup_app. split; [done|]. split; [|apply NoDup_singleton].
      intros j Hj ->%list_elem_of_singleton.
      apply Hl2 in Hj. congruence. }
    split; [|split].
    + intros j. rewrite Hl1. split.
      * intros (p & Hp & Hne). destruct (decide (j = k)) as [->|Hjk].
        -- exists at_end. split; [|done].
           apply list_lookup_insert_eq. by eapply lookup_lt_Some.
        -- exists p. by rewrite list_lookup_insert_ne.
      * intros (p & Hp & Hne).
        destruct (lookup_insert_cases _ _ _ _ _ Hp) as [[-> _]|[_ Hold]].
        -- by exists at_printf2.
        -- by exists p.
    + intros j. rewrite elem_of_app, list_elem_of_singleton, Hl2. split.
      * intros [Hj| ->].
        -- rewrite list_lookup_insert_ne; [done|]. intros ->. congruence.
        -- apply list_lookup_insert_eq. by eapply lookup_lt_Some.
      * intros Hj.
        destruct (lookup_insert_cases _ _ _ _ _ Hj) as [[-> _]|[_ Hold]];
          [by right|by left].
    + intros [?|?]%elem_of_insert_cases; done.
Qed.

Lemma team_invariant_run (order : list nat) (s s' : Team) :
  team_invariant s -> run order s = Some s' -> team_invariant s'.
Proof.
  revert s. induction order as [|k order IH]; intros s Hinv Hrun; simpl in Hrun.
  - by injection Hrun as <-.
  - destruct (thread_step k s) as [s1|] eqn:Hstep; [|done]. simpl in Hrun.
    apply (IH s1); [|done]. by eapply team_invariant_step.
Qed.

Lemma thread_step_length (k : nat) (s s' : Team) :
  thread_step k s = Some s' -> length (points s') = length (points s).
Proof.
  unfold thread_step. intros Hstep.
  destruct (points s !! k) as [[| | |]|]; try done;
    try case_decide; try done; injection Hstep as <-; simpl;
    by rewrite length_insert.
Qed.

Lemma run_length (order : list nat) (s s' : Team) :
  run order s = Some s' -> length (points s') = length (points s).
Proof.
  revert s. induction order as [|k order IH]; intros s Hrun; simpl in Hrun.
  - by injection Hrun as <-.
  - destruct (thread_step k s) as [s1|] eqn:Hstep; [|done]. simpl in Hrun.
    rewrite (IH s1) by done. by eapply thread_step_length.
Qed.

(** The threads whose first line is on the console once a second line is:
    the whole team. *)
Lemma first_lines_complete (threads : nat) (s : Team) (l1 : list nat) :
  length (points s) = threads -> NoDup l1 ->
  (forall k, k ∈ l1 <->
             exists p, points s !! k = Some p /\ p <> at_printf1) ->
  at_printf1 ∉ points s ->
  l1 ≡ₚ seq 0 threads.
Proof.
  intros Hlen Hnd Hl1 Harrived.
  apply NoDup_Permutation; [done|apply NoDup_seq|].
  intros k. rewrite Hl1, elem_of_seq. split.
  - intros (p & Hp%lookup_lt_Some & _). lia.
  - intros Hk. destruct (lookup_lt_is_Some_2 (points s) k) as [p Hp]; [lia|].
    exists p. split; [done|]. intros ->.
    apply Harrived. by eapply list_elem_of_lookup_2.
Qed.
End Barrier.

(** X15: no second line before all first lines.  At every moment of every
    run of OMP_Barrier, in whichever order the threads take their steps, the
    console holds first lines followed by second lines, no thread has printed
    a line twice, and as soon as one second line is there, the first lines of
    all the threads of the team precede it. *)
Theorem barrier_orders_the_lines (threads : nat) (order : list nat)
    (s : OMPBarrier.Team) :
  OMPBarrier.run order (OMPBarrier.parallel threads) = Some s ->
  exists l1 l2,
    OMPBarrier.stdout s
    = (OMPBarrier.Printf1 <$> l1) ++ (OMPBarrier.Printf2 <$> l2) /\
    NoDup l1 /\ NoDup l2 /\
    (l2 <> [] -> l1 ≡ₚ seq 0 threads).
Proof.
  intros Hrun.
  destruct (team_invariant_run order _ s (team_invariant_parallel threads) Hrun)
    as (l1 & l2 & Hout & Hnd1 & Hnd2 & Hl1 & Hl2 & Hwait).
  exists l1, l2. split; [done|]. split; [done|]. split; [done|].
  intros Hne. apply (first_lines_complete threads s); [|done..|].
  - rewrite (run_length order _ s Hrun). apply length_replicate.
  - intros Hin. destruct l2 as [|j l2]; [done|].
    assert (Hj : OMPBarrier.points s !! j = Some OMPBarrier.at_end)
      by apply Hl2, list_elem_of_here.
    by destruct (Hwait Hin j _ Hj).
Qed.

Lemma barrier_orders_the_lines_witness :
  exists l1 l2,
    OMPBarrier.stdout
      {| OMPBarrier.points :=
           [OMPBarrier.at_end; OMPBarrier.at_barrier; OMPBarrier.at_printf2];
         OMPBarrier.stdout :=
           [OMPBarrier.Printf1 2; OMPBarrier.Printf1 0; OMPBarrier.Printf1 1;
            OMPBarrier.Printf2 0] |}
    = (OMPBarrier.Printf1 <$> l1) ++ (OMPBarrier.Printf2 <$> l2) /\
    NoDup l1 /\ NoDup l2 /\
    (l2 <> [] -> l1 ≡ₚ seq 0 3).
Proof.
  apply (barrier_orders_the_lines 3 [2; 0; 1; 0; 2; 0]%nat).
  reflexivity.
Defined.

(** X16: a complete run of OMP_Barrier returns 0 and its console holds the
    first line of every thread of the team, in some order, followed by the
    second line of every thread, in some order. *)
Theorem OMP_Barrier_main (threads : nat) (order : list nat)
    (out : list OMPBarrier.Line) (code : Z) :
  OMPBarrier.main threads order = Some (out, code) ->
  code = 0 /\
  exists l1 l2,
    out = (OMPBarrier.Printf1 <$> l1) ++ (OMPBarrier.Printf2 <$> l2) /\
    l1 ≡ₚ seq 0 threads /\ l2 ≡ₚ seq 0 threads.
Proof.
  unfold OMPBarrier.main. intros Hmain.
  destruct (OMPBarrier.run order (OMPBarrier.parallel threads)) as [s|] eqn:Hrun;
    [|done].
  simpl in Hmain. case_decide as Hend; [|done].
  injection Hmain as <- <-. split; [done|].
  destruct (team_invariant_run order _ s (team_invariant_parallel threads) Hrun)
    as (l1 & l2 & Hout & Hnd1 & Hnd2 & Hl1 & Hl2 & _).
  assert (Hlen : length (OMPBarrier.points s) = threads).
  { rewrite (run_length order _ s Hrun). apply length_replicate. }
  rewrite Forall_lookup in Hend.
  exists l1, l2. split; [done|]. split.
  - apply (first_lines_complete threads s); [done..|].
    intros [k Hk]%list_elem_of_lookup_1. by apply Hend in Hk.
  - apply NoDup_Permutation; [done|apply NoDup_seq|].
    intros k. rewrite Hl2, elem_of_seq. split.
    + intros Hk%lookup_lt_Some. lia.
    + intros Hk.
      destruct (lookup_lt_is_Some_2 (OMPBarrier.points s) k) as [p Hp]; [lia|].
      by rewrite Hp, (Hend k p Hp).
Qed.

Lemma OMP_Barrier_main_witness :
  (0 : Z) = 0 /\
  exists l1 l2,
    [OMPBarrier.Printf1 1; OMPBarrier.Printf1 0;
     OMPBarrier.Printf2 0; OMPBarrier.Printf2 1]
    = (OMPBarrier.Printf1 <$> l1) ++ (OMPBarrier.Printf2 <$> l2) /\
    l1 ≡ₚ seq 0 2 /\ l2 ≡ₚ seq 0 2.
Proof.
  apply (OMP_Barrier_main 2 [1; 0; 0; 1; 0; 1]%nat).
  reflexivity.
Defined.

Section BarrierProgress.
Import OMPBarrier.

Local Abbreviation steps_of s := (sum_list (steps_taken <$> points s)).

Lemma steps_taken_insert (l : list Point) (k : nat) (p q : Point) :
  l !! k = Some p -> steps_taken q = S (steps_taken p) ->
  sum_list (steps_taken <$> <[k:=q]> l) = S (sum_list (steps_taken <$> l)).
Proof.
  revert k. induction l as [|x l IH]; intros k Hk Hq; [done|].
  destruct k as [|k]; simpl in *.
  - injection Hk as ->. lia.
  - specialize (IH k Hk Hq). unfold fmap in IH. lia.
Qed.

Lemma thread_step_steps (k : nat) (s s' : Team) :
  thread_step k s = Some s' -> steps_of s' = S (steps_of s).
Proof.
  unfold thread_step. intros Hstep.
  destruct (points s !! k) as [[| | |]|] eqn:Hk; try done;
    try case_decide; try done; injection Hstep as <-; simpl;
    by eapply steps_taken_insert.
Qed.

Lemma run_steps (order : list nat) (s s' : Team) :
  run order s = Some s' -> steps_of s' = (length order + steps_of s)%nat.
Proof.
  revert s. induction order as [|k order IH]; intros s Hrun; simpl in Hrun.
  - by injection Hrun as <-.
  - destruct (thread_step k s) as [s1|] eqn:Hstep; [|done]. simpl in Hrun.
    rewrite (IH s1) by done. rewrite (thread_step_steps k s s1) by done.
    simpl. lia.
Qed.

Lemma steps_bound (l : list Point) :
  (sum_list (steps_taken <$> l) <= 3 * length l)%nat.
Proof.
  induction l as [|p l IH]; [done|].
  rewrite fmap_cons. simpl. destruct p; simpl; lia.
Qed.

Lemma steps_parallel (threads : nat) : steps_of (parallel threads) = 0%nat.
Proof. simpl. induction threads as [|threads IH]; [done|]. simpl. exact IH. Qed.

(** A team where no thread can take a step has finished. *)
Lemma blocked_team_finished (s : Team) :
  (forall k, thread_step k s = None) ->
  Forall (fun p => p = at_end) (points s).
Proof.
  intros Hblocked.
  assert (Harrived : at_printf1 ∉ points s).
  { intros [j Hj]%list_elem_of_lookup_1.
    specialize (Hblocked j). unfold thread_step in Hblocked.
    by rewrite Hj in Hblocked. }
  apply Forall_lookup. intros k p Hk.
  specialize (Hblocked k). unfold thread_step in Hblocked.
  rewrite Hk in Hblocked. destruct p; try done.
  by rewrite decide_False in Hblocked.
Qed.
End BarrierProgress.

(** X17: the barrier cannot hang OMP_Barrier.  A run of a team of T threads
    takes at most 3 T steps (two lines and one barrier for each thread), and
    a run in which no thread can take a further step is a complete one: every
    thread has reached the end of the region and [main] returns 0. *)
Theorem barrier_never_deadlocks (threads : nat) (order : list nat)
    (s : OMPBarrier.Team) :
  OMPBarrier.run order (OMPBarrier.parallel threads) = Some s ->
  (length order <= 3 * threads)%nat /\
  ((forall k, OMPBarrier.thread_step k s = None) ->
   OMPBarrier.main threads order = Some (OMPBarrier.stdout s, 0)).
Proof.
  intros Hrun. split.
  - pose proof (run_steps order _ s Hrun) as Hsteps.
    rewrite steps_parallel in Hsteps.
    pose proof (steps_bound (OMPBarrier.points s)) as Hbound.
    rewrite (run_length order _ s Hrun) in Hbound. simpl in Hbound.
    rewrite length_replicate in Hbound. lia.
  - intros Hblocked%blocked_team_finished.
    unfold OMPBarrier.main. rewrite Hrun. simpl.
    by rewrite decide_True.
Qed.

Lemma barrier_never_deadlocks_witness :
  (length [1; 0; 0; 1; 0; 1]%nat <= 3 * 2)%nat /\
  ((forall k,
      OMPBarrier.thread_step k
        {| OMPBarrier.points := [OMPBarrier.at_end; OMPBarrier.at_end];
           OMPBarrier.stdout :=
             [OMPBarrier.Printf1 1; OMPBarrier.Printf1 0;
              OMPBarrier.Printf2 0; OMPBarrier.Printf2 1] |} = None) ->
   OMPBarrier.main 2 [1; 0; 0; 1; 0; 1]%nat
   = Some (OMPBarrier.stdout
             {| OMPBarrier.points := [OMPBarrier.at_end; OMPBarrier.at_end];
                OMPBarrier.stdout :=
                  [OMPBarrier.Printf1 1; OMPBarrier.Printf1 0;
                   OMPBarrier.Printf2 0; OMPBarrier.Printf2 1] |}, 0)).
Proof.
  apply (barrier_never_deadlocks 2 [1; 0; 0; 1; 0; 1]%nat).
  reflexivity.
Defined.
